(** * sEEPROM: the STM32L051 data-EEPROM driver, embedded in Rocq

    The development follows [sEEPROM.h] and [sEEPROM.cpp]:

    - machine integers are [Z] with the wrap-around of [uint16_t] and
      [uint32_t] written out ([wrap16], [wrap32]); the target is a Cortex-M0+
      ([int] is 32 bits wide, so a [uint16_t] operand is promoted to [int] and
      an expression that also has a [uint32_t] operand is computed modulo
      [2^32]);
    - the address space is one flat, little-endian, byte-addressed memory;
      [output] and [value] are addresses in it as they are pointers in C; an
      access of 1, 2 or 4 bytes is carried out whatever its alignment, and
      pointer arithmetic wraps at [2^32];
    - the FLASH peripheral is the two registers the driver touches, [PECR] and
      [PEKEYR]; every busy-wait, register write, load, store and [__WFI] is
      appended to a log of events, so that "no hardware access" is a statement
      about that log;
    - the [do ... while (idx != len)] loops are run with fuel; they are shown
      to finish within [2^16] rounds, the period of the [uint16_t] index. *)

From Stdlib Require Import ZArith List Lia Bool.
Import ListNotations.
Local Open Scope Z_scope.

(** ** Machine integers *)

Definition wrap16 (z : Z) : Z := z mod 2 ^ 16.
Definition wrap32 (z : Z) : Z := z mod 2 ^ 32.

(** ** Constants of [sEEPROM.h] *)

Definition SEEPROM_NOK : Z := 0.
Definition SEEPROM_OK : Z := 1.
Definition SEEPROM_OF : Z := 2.

Definition SEEPROM_START : Z := 0x08080000.
Definition SEEPROM_SIZE : Z := 2048.
Definition SEEPROM_END : Z := SEEPROM_START + SEEPROM_SIZE.

Definition PEKEY_VALUE_1 : Z := 0x89ABCDEF.
Definition PEKEY_VALUE_2 : Z := 0x02030405.

(** Bit masks of the vendor header [stm32l051xx.h] (bit 0 and bit 9 of
    [FLASH->PECR]). *)
Definition FLASH_PECR_PELOCK : Z := 0x1.
Definition FLASH_PECR_ERASE : Z := 0x200.

(** ** The machine *)

Inductive event : Type :=
| EvBusyWait                       (* while (FLASH->SR & FLASH_SR_BSY); *)
| EvKey (k : Z)                    (* FLASH->PEKEYR = k *)
| EvPecr (v : Z)                   (* FLASH->PECR = v *)
| EvLoad (w : nat) (a : Z)         (* load of [w] bytes at address [a] *)
| EvStore (w : nat) (a : Z) (v : Z) (* store of the [w]-byte value [v] at [a] *)
| EvWfi.                           (* __WFI() *)

Record machine : Type := mkMachine {
  mem : Z -> Z;          (* one byte per address *)
  PECR : Z;              (* FLASH->PECR *)
  PEKEYR : Z;            (* the last key written to FLASH->PEKEYR *)
  trace : list event     (* the log, newest event first *)
}.

(** The log in the order of execution. *)
Definition history (m : machine) : list event := rev (trace m).

Definition log (e : event) (m : machine) : machine :=
  mkMachine (mem m) (PECR m) (PEKEYR m) (e :: trace m).

Definition upd (f : Z -> Z) (a v : Z) : Z -> Z :=
  fun x => if x =? a then v else f x.

(** Little-endian access of [w] bytes; byte addresses wrap at [2^32]. *)
Fixpoint load_le (f : Z -> Z) (a : Z) (w : nat) : Z :=
  match w with
  | O => 0
  | S w' => f (wrap32 a) + 2 ^ 8 * load_le f (a + 1) w'
  end.

Fixpoint store_le (f : Z -> Z) (a : Z) (w : nat) (v : Z) : Z -> Z :=
  match w with
  | O => f
  | S w' => store_le (upd f (wrap32 a) (v mod 2 ^ 8)) (a + 1) w' (v / 2 ^ 8)
  end.

(** ** A state monad with failure (failure is running out of loop fuel) *)

Definition M (A : Type) : Type := machine -> option (A * machine).

Definition ret {A : Type} (a : A) : M A := fun m => Some (a, m).

Definition bind {A B : Type} (c : M A) (k : A -> M B) : M B :=
  fun m => match c m with
           | Some (a, m') => k a m'
           | None => None
           end.

Definition out_of_fuel {A : Type} : M A := fun _ => None.

Notation "x <- c ;; k" := (bind c (fun x => k))
  (at level 61, c at next level, right associativity).
Notation "c ;; k" := (bind c (fun _ => k))
  (at level 61, right associativity).

(** Primitive accesses. *)

Definition busy_wait : M unit := fun m => Some (tt, log EvBusyWait m).

Definition wfi : M unit := fun m => Some (tt, log EvWfi m).

Definition load (w : nat) (a : Z) : M Z :=
  fun m => Some (load_le (mem m) a w, log (EvLoad w a) m).

Definition store (w : nat) (a v : Z) : M unit :=
  fun m => Some (tt, mkMachine (store_le (mem m) a w v) (PECR m) (PEKEYR m)
                        (EvStore w a v :: trace m)).

Definition read_PECR : M Z := fun m => Some (PECR m, m).

Definition write_PECR (v : Z) : M unit :=
  fun m => Some (tt, mkMachine (mem m) v (PEKEYR m) (EvPecr v :: trace m)).

(** A key written to [PEKEYR].  [sEEPROM.h] documents the two keys as the
    values that unlock the EEPROM and [PECR]: the controller clears PELOCK
    when the second key follows the first. *)
Definition write_PEKEYR (k : Z) : M unit :=
  fun m =>
    let pecr := if (PEKEYR m =? PEKEY_VALUE_1) && (k =? PEKEY_VALUE_2)
                then Z.land (PECR m) (wrap32 (Z.lnot FLASH_PECR_PELOCK))
                else PECR m in
    Some (tt, mkMachine (mem m) pecr k (EvKey k :: trace m)).

(** [do body(idx); idx++; while (idx != len);] with a [uint16_t] index. *)
Fixpoint do_while (fuel : nat) (body : Z -> M unit) (idx len : Z) : M unit :=
  match fuel with
  | O => out_of_fuel
  | S fuel' =>
      body idx ;;
      let idx' := wrap16 (idx + 1) in
      if idx' =? len then ret tt else do_while fuel' body idx' len
  end.

Definition loop_fuel : nat := Z.to_nat (2 ^ 16).

(** ** The class [sEEPROM] *)

Record sEEPROM : Type := mk_sEEPROM {
  start : Z;     (* uint32_t start *)
  length : Z     (* uint16_t length *)
}.

(** [sEEPROM::unlockEEPROM] *)
Definition unlockEEPROM : M unit :=
  busy_wait ;;
  write_PEKEYR PEKEY_VALUE_1 ;;
  write_PEKEYR PEKEY_VALUE_2.

(** [sEEPROM::lockEEPROM] *)
Definition lockEEPROM : M unit :=
  busy_wait ;;
  r <- read_PECR ;;
  write_PECR (Z.lor r FLASH_PECR_PELOCK).

(** The body of the loop of [sEEPROM::read]: the byte [addr[idx]] is copied
    to [output[idx]]. *)
Definition read_step (addr output idx : Z) : M unit :=
  b <- load 1 (addr + idx) ;;
  store 1 (output + idx) b.

(** [sEEPROM::read] *)
Definition read (self : sEEPROM) (startOffset output len : Z) : M Z :=
  if wrap32 (start self + startOffset + len) <? wrap32 (start self + len)
  then ret SEEPROM_OF
  else
    let addr := wrap32 (start self + startOffset) in
    do_while loop_fuel (read_step addr output) 0 len ;;
    ret SEEPROM_OK.

(** The body of the loop of the private template [sEEPROM::write<T>], with
    [w = sizeof(T)]: wait while busy, then [startAddr[idx] = value[idx];] *)
Definition write_T_step (w : nat) (startAddr value idx : Z) : M unit :=
  busy_wait ;;
  v <- load w (value + Z.of_nat w * idx) ;;
  store w (startAddr + Z.of_nat w * idx) v.

(** [sEEPROM::write<T>] *)
Definition write_T (w : nat) (startAddr value len : Z) : M unit :=
  do_while loop_fuel (write_T_step w startAddr value) 0 len.

(** [sEEPROM::write] *)
Definition write (self : sEEPROM) (startOffset value len : Z) : M Z :=
  if wrap32 (start self + startOffset + len) <? wrap32 (start self + len)
  then ret SEEPROM_OF
  else
    unlockEEPROM ;;
    let len4 := wrap16 (len / 4) in
    let len := wrap16 (len mod 4) in
    let len2 := wrap16 (len / 2) in
    let len := wrap16 (len mod 2) in
    startOffset <-
      (if len4 =? 0 then ret startOffset
       else
         write_T 4 (wrap32 (start self + startOffset)) value len4 ;;
         ret (wrap16 (startOffset + len4 * 4))) ;;
    startOffset <-
      (if len2 =? 0 then ret startOffset
       else
         write_T 2 (wrap32 (start self + startOffset))
                   (value + 2 * startOffset) len2 ;;
         ret (wrap16 (startOffset + len2 * 2))) ;;
    (if len =? 0 then ret tt
     else write_T 1 (wrap32 (start self + startOffset))
                    (value + startOffset) len) ;;
    lockEEPROM ;;
    ret SEEPROM_OK.

(** The body of the loop of [sEEPROM::erase]: [addr[idx] = 0x00; __WFI();] *)
Definition erase_step (addr idx : Z) : M unit :=
  store 4 (addr + 4 * idx) 0 ;;
  wfi.

(** [sEEPROM::erase] *)
Definition erase (self : sEEPROM) (startOffset len : Z) : M Z :=
  if negb (startOffset mod 4 =? 0) then ret SEEPROM_NOK
  else if wrap32 (start self + startOffset + len * 4)
          <? wrap32 (start self + len * 4)
  then ret SEEPROM_OF
  else
    let addr := wrap32 (start self + startOffset) in
    unlockEEPROM ;;
    r <- read_PECR ;;
    write_PECR (Z.lor r FLASH_PECR_ERASE) ;;
    do_while loop_fuel (erase_step addr) 0 len ;;
    r <- read_PECR ;;
    write_PECR (Z.land r (wrap32 (Z.lnot FLASH_PECR_ERASE))) ;;
    lockEEPROM ;;
    ret SEEPROM_OK.

(** ** Vocabulary of the statements *)

(** The guard shared by [read], [write] and [erase], on a byte count. *)
Definition wraps_below (self : sEEPROM) (startOffset nbytes : Z) : Prop :=
  wrap32 (start self + startOffset + nbytes) < wrap32 (start self + nbytes).

(** A loop of [n] rounds without an exit test: [body idx; body (idx+1); ...]. *)
Fixpoint run (n : nat) (body : Z -> M unit) (idx : Z) : M unit :=
  match n with
  | O => ret tt
  | S n' => body idx ;; run n' body (idx + 1)
  end.

(** The number of rounds of [do ... while (idx != len)] started at [idx = 0]:
    a zero [len] is met again only after the index has wrapped. *)
Definition rounds (len : Z) : Z := if len =? 0 then 2 ^ 16 else len.

(** [m'] is [m] after the events [evs], in order. *)
Definition emits (m m' : machine) (evs : list event) : Prop :=
  history m' = history m ++ evs.

Definition is_load (e : event) : bool :=
  match e with EvLoad _ _ => true | _ => false end.

Definition is_store (e : event) : bool :=
  match e with EvStore _ _ _ => true | _ => false end.

(** Events of a chunk write: busy-waits, loads and stores. *)
Definition is_copy (e : event) : bool :=
  match e with EvBusyWait | EvLoad _ _ | EvStore _ _ _ => true | _ => false end.

(** Events of the erase loop: stores and waits for interrupt. *)
Definition is_wipe (e : event) : bool :=
  match e with EvStore _ _ _ | EvWfi => true | _ => false end.

Definition count (p : event -> bool) (evs : list event) : nat :=
  List.length (filter p evs).

(** What one round of a loop is allowed to do: it returns, leaves the two
    registers alone, and logs [nl] loads and [ns] stores among events that all
    satisfy [ok]. *)
Definition round_spec (ok : event -> bool) (nl ns : nat) (c : M unit) : Prop :=
  forall m, exists m' evs,
    c m = Some (tt, m') /\
    PECR m' = PECR m /\ PEKEYR m' = PEKEYR m /\
    emits m m' evs /\
    Forall (fun e => ok e = true) evs /\
    count is_load evs = nl /\ count is_store evs = ns.

(** A computation that returns, leaves the two registers alone, and logs only
    events that satisfy [ok]. *)
Definition quiet {A : Type} (ok : event -> bool) (c : M A) : Prop :=
  forall m, exists a m' evs,
    c m = Some (a, m') /\
    PECR m' = PECR m /\ PEKEYR m' = PEKEYR m /\
    emits m m' evs /\
    Forall (fun e => ok e = true) evs.

(** The value of [FLASH->PECR] and the log after [unlockEEPROM]. *)
Definition unlocked (m : machine) : machine :=
  mkMachine (mem m) (Z.land (PECR m) (wrap32 (Z.lnot FLASH_PECR_PELOCK)))
            PEKEY_VALUE_2
            (EvKey PEKEY_VALUE_2 :: EvKey PEKEY_VALUE_1 :: EvBusyWait :: trace m).

(** The [n] bytes at address [a]. *)
Definition bytes_at (m : machine) (a : Z) (n : nat) : list Z :=
  map (fun i => mem m (wrap32 (a + Z.of_nat i))) (seq 0 n).

(** A machine with the given memory, locked, and an empty log. *)
Definition boot (f : Z -> Z) : machine :=
  mkMachine f FLASH_PECR_PELOCK 0 [].

(** [a] is one of the [n] bytes that start at [base]. *)
Definition in_span (base n a : Z) : Prop :=
  exists j, 0 <= j < n /\ a = wrap32 (base + j).

(** [g] is [f] with the [n] bytes at [base] cleared and nothing else changed. *)
Definition cleared (f g : Z -> Z) (base n : Z) : Prop :=
  forall a, (in_span base n a /\ g a = 0) \/ (~ in_span base n a /\ g a = f a).

(** The status a call returns, if it returns. *)
Definition status {A : Type} (r : option (A * machine)) : option A :=
  match r with Some (a, _) => Some a | None => None end.

(** The call returns, with [SEEPROM_OF] when [guard] holds and with
    [SEEPROM_OK] when it does not. *)
Definition decides (r : option (Z * machine)) (guard : Prop) : Prop :=
  (status r = Some SEEPROM_OF <-> guard) /\
  (status r = Some SEEPROM_OK <-> ~ guard).

(** A scenario on the platform's EEPROM: the caller's buffer [value] is at
    [value_addr] and the RAM there holds the bytes 1, 2, ..., 16 in ascending
    order, so that the buffer of a [len]-byte request is [1 .. len] and the
    bytes behind it are [len + 1 ..]; [output] is at [output_addr]. *)
Definition demo : sEEPROM := mk_sEEPROM SEEPROM_START SEEPROM_SIZE.
Definition value_addr : Z := 0x20000000.
Definition output_addr : Z := 0x20000100.
Definition demo_ram : Z -> Z :=
  fun a => if (value_addr <=? a) && (a <? value_addr + 16)
           then a - value_addr + 1 else 0.

(** [write] followed by [read] of the same range. *)
Definition write_then_read (self : sEEPROM) (startOffset value output len : Z)
  : M (Z * Z) :=
  s1 <- write self startOffset value len ;;
  s2 <- read self startOffset output len ;;
  ret (s1, s2).

(** The result of a computation together with [n] bytes of the final memory
    at address [a]. *)
Definition observe {A : Type} (r : option (A * machine)) (a : Z) (n : nat)
  : option (A * list Z) :=
  match r with
  | Some (x, m) => Some (x, bytes_at m a n)
  | None => None
  end.

(** The final log and [n] bytes of the final memory at address [a]. *)
Definition observe_log {A : Type} (r : option (A * machine)) (a : Z) (n : nat)
  : option (A * list event * list Z) :=
  match r with
  | Some (x, m) => Some (x, history m, bytes_at m a n)
  | None => None
  end.

(** ** Vocabulary of the memory statements *)

(** Every cell of the memory holds a byte. *)
Definition bytes_mem (f : Z -> Z) : Prop := forall a, 0 <= f a < 2 ^ 8.

(** No byte of the [n] at [a] is one of the [k] at [b]. *)
Definition apart (a n b k : Z) : Prop :=
  forall i j, 0 <= i < n -> 0 <= j < k -> wrap32 (a + i) <> wrap32 (b + j).

(** [g] is [f] with the [n] bytes at [dst] replaced by the [n] bytes that [f]
    has at [src], and nothing else changed. *)
Definition copied (f g : Z -> Z) (dst src n : Z) : Prop :=
  forall x,
    (exists j, 0 <= j < n /\ x = wrap32 (dst + j) /\ g x = f (wrap32 (src + j)))
    \/ (~ in_span dst n x /\ g x = f x).

(** [g] differs from [f] at most on the [n] bytes at [base]. *)
Definition same_outside (f g : Z -> Z) (base n : Z) : Prop :=
  forall x, ~ in_span base n x -> g x = f x.

(** Loads and stores, and nothing from the FLASH peripheral. *)
Definition is_access (e : event) : bool := is_load e || is_store e.

(** [erase] of [len] words followed by [read] of their [4 * len] bytes. *)
Definition erase_then_read (self : sEEPROM) (startOffset output len : Z)
  : M (Z * Z) :=
  s1 <- erase self startOffset len ;;
  s2 <- read self startOffset output (4 * len) ;;
  ret (s1, s2).


(** The log of a chunk group of [write]: for each of [n] elements of [w]
    bytes, stored at [a], [a + w], ..., a busy-wait, then the load of the
    element, then its store. *)
Inductive chunk_log (w : nat) : Z -> nat -> list event -> Prop :=
| chunk_done (a : Z) : chunk_log w a 0 []
| chunk_next (a : Z) (n : nat) (src v : Z) (evs : list event) :
    chunk_log w (a + Z.of_nat w) n evs ->
    chunk_log w a (S n) (EvBusyWait :: EvLoad w src :: EvStore w a v :: evs).

(** [read] of a range into [buf] followed by [write] of [buf] to the same
    range. *)
Definition read_then_write (self : sEEPROM) (startOffset buf len : Z)
  : M (Z * Z) :=
  s1 <- read self startOffset buf len ;;
  s2 <- write self startOffset buf len ;;
  ret (s1, s2).

(** * Properties *)

(** ** The loops finish *)

Lemma wrap16_small (z : Z) : 0 <= z < 2 ^ 16 -> wrap16 z = z.
Proof. intros H. unfold wrap16. apply Z.mod_small. exact H. Qed.

Lemma wrap16_range (z : Z) : 0 <= wrap16 z < 2 ^ 16.
Proof. unfold wrap16. apply Z.mod_pos_bound. lia. Qed.

Lemma wrap32_range (z : Z) : 0 <= wrap32 z < 2 ^ 32.
Proof. unfold wrap32. apply Z.mod_pos_bound. lia. Qed.

Lemma rounds_range (len : Z) : 0 <= len < 2 ^ 16 -> 0 < rounds len <= 2 ^ 16.
Proof. intros H. unfold rounds. destruct (Z.eqb_spec len 0); lia. Qed.

Lemma do_while_run_from (body : Z -> M unit) (len : Z) :
  0 <= len < 2 ^ 16 ->
  forall (k fuel : nat) (idx : Z) (m : machine),
    0 <= idx ->
    idx + Z.of_nat (S k) = rounds len ->
    (S k <= fuel)%nat ->
    do_while fuel body idx len m = run (S k) body idx m.
Proof.
  intros Hlen. induction k as [|k IH]; intros fuel idx m Hidx Hk Hfuel.
  - destruct fuel as [|fuel]; [lia|].
    cbn [do_while run]. unfold bind.
    destruct (body idx m) as [[[] m1]|]; [|reflexivity].
    assert (E : wrap16 (idx + 1) = len).
    { unfold rounds in Hk. destruct (Z.eqb_spec len 0) as [->|Hne].
      - replace (idx + 1) with (2 ^ 16) by lia. reflexivity.
      - replace (idx + 1) with len by lia. apply wrap16_small. lia. }
    rewrite E, Z.eqb_refl. reflexivity.
  - destruct fuel as [|fuel]; [lia|].
    cbn [do_while]. change (run (S (S k)) body idx) with
      (body idx ;; run (S k) body (idx + 1)).
    unfold bind.
    destruct (body idx m) as [[[] m1]|]; [|reflexivity].
    pose proof (rounds_range len Hlen) as Hr.
    assert (E : wrap16 (idx + 1) = idx + 1) by (apply wrap16_small; lia).
    rewrite E.
    destruct (Z.eqb_spec (idx + 1) len) as [Heq|Hne].
    + exfalso. unfold rounds in Hk. destruct (Z.eqb_spec len 0); lia.
    + apply IH; lia.
Qed.

Lemma rounds_0 : Z.of_nat (Z.to_nat (rounds 0)) = 2 ^ 16.
Proof. rewrite Z2Nat.id; [reflexivity | unfold rounds; cbn [Z.eqb]; lia]. Qed.

Lemma do_while_run (body : Z -> M unit) (len : Z) (m : machine) :
  0 <= len < 2 ^ 16 ->
  do_while loop_fuel body 0 len m = run (Z.to_nat (rounds len)) body 0 m.
Proof.
  intros Hlen. pose proof (rounds_range len Hlen) as Hr.
  destruct (Z.to_nat (rounds len)) as [|k] eqn:Ek; [lia|].
  apply do_while_run_from; unfold loop_fuel; try lia.
Qed.

(** ** The log *)

Lemma emits_nil (m : machine) : emits m m [].
Proof. unfold emits. now rewrite app_nil_r. Qed.

Lemma emits_app (m m1 m2 : machine) (e1 e2 : list event) :
  emits m m1 e1 -> emits m1 m2 e2 -> emits m m2 (e1 ++ e2).
Proof. unfold emits. intros H1 H2. now rewrite H2, H1, app_assoc. Qed.

Lemma count_app (p : event -> bool) (e1 e2 : list event) :
  count p (e1 ++ e2) = (count p e1 + count p e2)%nat.
Proof. unfold count. now rewrite filter_app, length_app. Qed.

(** Closes a goal [emits m m' evs] between two explicit machines. *)
Ltac log_eq :=
  unfold emits, history; cbn; repeat rewrite <- app_assoc; reflexivity.

Section Rounds.
Variable body : Z -> M unit.
Variable ok : event -> bool.
Variables nl ns : nat.
Hypothesis body_round : forall idx, round_spec ok nl ns (body idx).

Lemma run_rounds (n : nat) :
  forall idx, round_spec ok (n * nl) (n * ns) (run n body idx).
Proof.
  induction n as [|n IH]; intros idx m.
  - exists m, []. cbn. repeat split; auto using emits_nil.
  - destruct (body_round idx m) as (m1 & e1 & E1 & P1 & K1 & T1 & F1 & L1 & S1).
    destruct (IH (idx + 1) m1) as (m2 & e2 & E2 & P2 & K2 & T2 & F2 & L2 & S2).
    exists m2, (e1 ++ e2). cbn [run]. unfold bind. rewrite E1, E2.
    repeat split; try congruence.
    + eapply emits_app; eassumption.
    + apply Forall_app; split; assumption.
    + rewrite count_app, L1, L2. reflexivity.
    + rewrite count_app, S1, S2. reflexivity.
Qed.

Lemma do_while_rounds (len : Z) :
  0 <= len < 2 ^ 16 ->
  round_spec ok (Z.to_nat (rounds len) * nl) (Z.to_nat (rounds len) * ns)
             (do_while loop_fuel body 0 len).
Proof.
  intros Hlen m. rewrite do_while_run by assumption. apply run_rounds.
Qed.
End Rounds.

Lemma read_step_round (addr output idx : Z) :
  round_spec is_copy 1 1 (read_step addr output idx).
Proof.
  intros m. eexists _, [EvLoad 1 (addr + idx); EvStore 1 (output + idx) _].
  cbn. repeat split; try log_eq; repeat constructor.
Qed.

Lemma write_T_step_round (w : nat) (startAddr value idx : Z) :
  round_spec is_copy 1 1 (write_T_step w startAddr value idx).
Proof.
  intros m.
  eexists _, [EvBusyWait; EvLoad w (value + Z.of_nat w * idx);
              EvStore w (startAddr + Z.of_nat w * idx) _].
  cbn. repeat split; try log_eq; repeat constructor.
Qed.

Lemma erase_step_round (addr idx : Z) :
  round_spec is_wipe 0 1 (erase_step addr idx).
Proof.
  intros m. eexists _, [EvStore 4 (addr + 4 * idx) 0; EvWfi].
  cbn. repeat split; try log_eq; repeat constructor.
Qed.

Lemma write_T_round (w : nat) (startAddr value len : Z) :
  0 <= len < 2 ^ 16 ->
  round_spec is_copy (Z.to_nat (rounds len) * 1) (Z.to_nat (rounds len) * 1)
             (write_T w startAddr value len).
Proof.
  intros Hlen. unfold write_T.
  apply do_while_rounds; [apply write_T_step_round | exact Hlen].
Qed.

Lemma round_quiet (ok : event -> bool) (nl ns : nat) (c : M unit) :
  round_spec ok nl ns c -> quiet ok c.
Proof.
  intros H m. destruct (H m) as (m' & evs & E & P & K & T & F & _).
  exists tt, m', evs. auto.
Qed.

Lemma quiet_ret {A : Type} (ok : event -> bool) (a : A) : quiet ok (ret a).
Proof. intros m. exists a, m, []. cbn. auto using emits_nil. Qed.

Lemma quiet_bind {A B : Type} (ok : event -> bool) (c : M A) (k : A -> M B) :
  quiet ok c -> (forall a, quiet ok (k a)) -> quiet ok (bind c k).
Proof.
  intros Hc Hk m.
  destruct (Hc m) as (a & m1 & e1 & E1 & P1 & K1 & T1 & F1).
  destruct (Hk a m1) as (b & m2 & e2 & E2 & P2 & K2 & T2 & F2).
  exists b, m2, (e1 ++ e2). unfold bind. rewrite E1, E2.
  repeat split; try congruence.
  - eapply emits_app; eassumption.
  - apply Forall_app; split; assumption.
Qed.

(** A chunk group of [sEEPROM::write]: skipped when the count is zero. *)
Lemma quiet_chunk (w : nat) (startAddr value n x y : Z) :
  0 <= n < 2 ^ 16 ->
  quiet is_copy
    (if n =? 0 then ret x else write_T w startAddr value n ;; ret y).
Proof.
  intros Hn. destruct (n =? 0).
  - apply quiet_ret.
  - apply quiet_bind.
    + eapply round_quiet, write_T_round, Hn.
    + intros _. apply quiet_ret.
Qed.

(** ** The lock protocol *)

Lemma unlockEEPROM_eq (m : machine) : unlockEEPROM m = Some (tt, unlocked m).
Proof.
  unfold unlockEEPROM, bind, busy_wait, write_PEKEYR, unlocked. cbn.
  rewrite andb_false_r. reflexivity.
Qed.

Lemma lockEEPROM_eq (m : machine) :
  lockEEPROM m =
  Some (tt, mkMachine (mem m) (Z.lor (PECR m) FLASH_PECR_PELOCK) (PEKEYR m)
                      (EvPecr (Z.lor (PECR m) FLASH_PECR_PELOCK)
                         :: EvBusyWait :: trace m)).
Proof. reflexivity. Qed.

Lemma unlocked_PELOCK (m : machine) : Z.testbit (PECR (unlocked m)) 0 = false.
Proof.
  unfold unlocked. cbn [PECR]. rewrite Z.land_spec.
  change (Z.testbit (wrap32 (Z.lnot FLASH_PECR_PELOCK)) 0) with false.
  apply andb_false_r.
Qed.

Lemma locked_PELOCK (r : Z) : Z.testbit (Z.lor r FLASH_PECR_PELOCK) 0 = true.
Proof. rewrite Z.lor_spec. apply orb_true_r. Qed.

Lemma quiet_last_chunk (w : nat) (startAddr value n : Z) :
  0 <= n < 2 ^ 16 ->
  quiet is_copy (if n =? 0 then ret tt else write_T w startAddr value n).
Proof.
  intros Hn. destruct (n =? 0).
  - apply quiet_ret.
  - eapply round_quiet, write_T_round, Hn.
Qed.

(** ** The three operations, case by case *)

Lemma read_rejects (self : sEEPROM) (startOffset output len : Z) (m : machine) :
  wraps_below self startOffset len ->
  read self startOffset output len m = Some (SEEPROM_OF, m).
Proof.
  unfold wraps_below, read. intros H.
  apply Z.ltb_lt in H. rewrite H. reflexivity.
Qed.

Lemma read_accepts (self : sEEPROM) (startOffset output len : Z) (m : machine) :
  0 <= len < 2 ^ 16 ->
  ~ wraps_below self startOffset len ->
  exists m' evs,
    read self startOffset output len m = Some (SEEPROM_OK, m') /\
    emits m m' evs /\
    PECR m' = PECR m /\
    Forall (fun e => is_copy e = true) evs /\
    count is_load evs = Z.to_nat (rounds len) /\
    count is_store evs = Z.to_nat (rounds len).
Proof.
  unfold wraps_below, read. intros Hlen H.
  apply Z.ltb_nlt in H. rewrite H.
  destruct (do_while_rounds _ _ _ _
              (read_step_round (wrap32 (start self + startOffset)) output)
              len Hlen m)
    as (m' & evs & E & P & K & T & F & L & S).
  exists m', evs. unfold bind. rewrite E. cbn.
  rewrite Nat.mul_1_r in L, S. auto 10.
Qed.

Lemma write_rejects (self : sEEPROM) (startOffset value len : Z) (m : machine) :
  wraps_below self startOffset len ->
  write self startOffset value len m = Some (SEEPROM_OF, m).
Proof.
  unfold wraps_below, write. intros H.
  apply Z.ltb_lt in H. rewrite H. reflexivity.
Qed.

Lemma write_accepts (self : sEEPROM) (startOffset value len : Z) (m : machine) :
  ~ wraps_below self startOffset len ->
  exists m' body,
    write self startOffset value len m = Some (SEEPROM_OK, m') /\
    emits m m' ([EvBusyWait; EvKey PEKEY_VALUE_1; EvKey PEKEY_VALUE_2]
                  ++ body ++ [EvBusyWait; EvPecr (PECR m')]) /\
    Forall (fun e => is_copy e = true) body /\
    Z.testbit (PECR m') 0 = true.
Proof.
  unfold wraps_below, write. intros H.
  apply Z.ltb_nlt in H. rewrite H.
  unfold bind at 1. rewrite unlockEEPROM_eq.
  unfold bind at 1.
  destruct (quiet_chunk 4 (wrap32 (start self + startOffset)) value
              (wrap16 (len / 4)) startOffset
              (wrap16 (startOffset + wrap16 (len / 4) * 4))
              (wrap16_range _) (unlocked m))
    as (so1 & m1 & e1 & E1 & P1 & K1 & T1 & F1).
  rewrite E1. unfold bind at 1.
  destruct (quiet_chunk 2 (wrap32 (start self + so1)) (value + 2 * so1)
              (wrap16 (wrap16 (len mod 4) / 2)) so1
              (wrap16 (so1 + wrap16 (wrap16 (len mod 4) / 2) * 2))
              (wrap16_range _) m1)
    as (so2 & m2 & e2 & E2 & P2 & K2 & T2 & F2).
  rewrite E2. unfold bind at 1.
  destruct (quiet_last_chunk 1 (wrap32 (start self + so2)) (value + so2)
              (wrap16 (wrap16 (len mod 4) mod 2))
              (wrap16_range _) m2)
    as ([] & m3 & e3 & E3 & P3 & K3 & T3 & F3).
  rewrite E3. unfold bind at 1. rewrite lockEEPROM_eq. cbn [ret].
  eexists _, (e1 ++ e2 ++ e3). split; [reflexivity|]. cbn [PECR].
  split; [|split].
  - unfold emits in *. unfold history in *. cbn [trace unlocked] in *.
    cbn [rev]. rewrite T3, T2, T1. cbn [rev].
    repeat rewrite <- app_assoc. reflexivity.
  - repeat (apply Forall_app; split); assumption.
  - apply locked_PELOCK.
Qed.

(** ** Memory after the erase loop *)

Lemma store_le_zero (w : nat) :
  forall f a, cleared f (store_le f a w 0) a (Z.of_nat w).
Proof.
  induction w as [|w IH]; intros f a x.
  - right. split; [|reflexivity]. intros (j & Hj & _). lia.
  - cbn [store_le]. change (0 mod 2 ^ 8) with 0. change (0 / 2 ^ 8) with 0.
    destruct (IH (upd f (wrap32 a) 0) (a + 1) x) as [[(j & Hj & ->) E]|[N E]].
    + left. split; [|exact E].
      exists (j + 1). split; [lia|]. f_equal. lia.
    + rewrite E. unfold upd. destruct (Z.eqb_spec x (wrap32 a)) as [->|Hne].
      * left. split; [|reflexivity]. exists 0. split; [lia|]. f_equal. lia.
      * right. split; [|reflexivity]. intros (j & Hj & ->).
        destruct (Z.eq_dec j 0) as [->|Hj0].
        -- apply Hne. f_equal. lia.
        -- apply N. exists (j - 1). split; [lia|]. f_equal. lia.
Qed.

Lemma cleared_nil (f : Z -> Z) (base : Z) : cleared f f base 0.
Proof. intros a. right. split; [|reflexivity]. intros (j & Hj & _). lia. Qed.

Lemma cleared_app (f g h : Z -> Z) (base n k : Z) :
  0 <= n -> 0 <= k ->
  cleared f g base n -> cleared g h (base + n) k -> cleared f h base (n + k).
Proof.
  intros Hn Hk Hfg Hgh a.
  destruct (Hgh a) as [[(j & Hj & ->) E]|[N2 E2]].
  - left. split; [|exact E]. exists (n + j). split; [lia|]. f_equal. lia.
  - rewrite E2. destruct (Hfg a) as [[(j & Hj & ->) E]|[N1 E1]].
    + left. split; [|exact E]. exists j. split; [lia|reflexivity].
    + right. split; [|exact E1]. intros (j & Hj & ->).
      destruct (Z_lt_ge_dec j n) as [Hlt|Hge].
      * apply N1. exists j. split; [lia|reflexivity].
      * apply N2. exists (j - n). split; [lia|]. f_equal. lia.
Qed.

Lemma run_erase_cleared (addr : Z) (n : nat) :
  forall idx m m',
    run n (erase_step addr) idx m = Some (tt, m') ->
    cleared (mem m) (mem m') (addr + 4 * idx) (4 * Z.of_nat n).
Proof.
  induction n as [|n IH]; intros idx m m' E.
  - cbn in E. injection E as <-. apply cleared_nil.
  - cbn [run] in E. unfold bind at 1 in E.
    unfold erase_step, bind, store, wfi in E. cbn [log mem PECR PEKEYR trace] in E.
    apply IH in E. unfold log in E. cbn [mem] in E.
    replace (4 * Z.of_nat (S n)) with (Z.of_nat 4 + 4 * Z.of_nat n) by lia.
    eapply cleared_app; [lia | lia | apply (store_le_zero 4) |].
    replace (addr + 4 * idx + Z.of_nat 4) with (addr + 4 * (idx + 1)) by lia.
    exact E.
Qed.

Lemma erase_misaligned (self : sEEPROM) (startOffset len : Z) (m : machine) :
  startOffset mod 4 <> 0 ->
  erase self startOffset len m = Some (SEEPROM_NOK, m).
Proof.
  unfold erase. intros H. apply Z.eqb_neq in H. rewrite H. reflexivity.
Qed.

Lemma erase_rejects (self : sEEPROM) (startOffset len : Z) (m : machine) :
  startOffset mod 4 = 0 ->
  wraps_below self startOffset (len * 4) ->
  erase self startOffset len m = Some (SEEPROM_OF, m).
Proof.
  unfold wraps_below, erase. intros Ha H.
  apply Z.eqb_eq in Ha. apply Z.ltb_lt in H. rewrite Ha, H. reflexivity.
Qed.

Lemma erase_accepts (self : sEEPROM) (startOffset len : Z) (m : machine) :
  0 <= len < 2 ^ 16 ->
  startOffset mod 4 = 0 ->
  ~ wraps_below self startOffset (len * 4) ->
  exists m' body v1 v2,
    erase self startOffset len m = Some (SEEPROM_OK, m') /\
    emits m m' ([EvBusyWait; EvKey PEKEY_VALUE_1; EvKey PEKEY_VALUE_2;
                 EvPecr v1]
                  ++ body ++ [EvPecr v2; EvBusyWait; EvPecr (PECR m')]) /\
    Z.testbit v1 9 = true /\ Z.testbit v2 9 = false /\
    Forall (fun e => is_wipe e = true) body /\
    count is_store body = Z.to_nat (rounds len) /\
    Z.testbit (PECR m') 0 = true /\
    Z.testbit (PECR m') 9 = false /\
    cleared (mem m) (mem m') (wrap32 (start self + startOffset))
            (4 * rounds len).
Proof.
  unfold wraps_below, erase. intros Hlen Ha H.
  apply Z.eqb_eq in Ha. apply Z.ltb_nlt in H. rewrite Ha, H. cbn [negb].
  unfold bind at 1. rewrite unlockEEPROM_eq.
  unfold bind at 1. unfold read_PECR at 1.
  unfold bind at 1. unfold write_PECR at 1.
  set (v1 := Z.lor (PECR (unlocked m)) FLASH_PECR_ERASE).
  set (m0 := mkMachine _ _ _ _).
  set (addr := wrap32 (start self + startOffset)).
  destruct (do_while_rounds _ _ _ _ (erase_step_round addr) len Hlen m0)
    as (m1 & body & E & P & K & T & F & _ & S).
  pose proof E as E'. rewrite do_while_run in E' by assumption.
  apply run_erase_cleared in E'.
  unfold bind at 1. rewrite E.
  unfold bind at 1. unfold read_PECR at 1.
  unfold bind at 1. unfold write_PECR at 1.
  unfold bind at 1. rewrite lockEEPROM_eq. cbn [ret mem PECR PEKEYR trace].
  set (v2 := Z.land (PECR m1) (wrap32 (Z.lnot FLASH_PECR_ERASE))).
  eexists _, body, v1, v2. split; [reflexivity|]. cbn [mem PECR].
  assert (B1 : Z.testbit v1 9 = true).
  { unfold v1. rewrite Z.lor_spec. apply orb_true_r. }
  assert (B2 : Z.testbit v2 9 = false).
  { unfold v2. rewrite Z.land_spec.
    change (Z.testbit (wrap32 (Z.lnot FLASH_PECR_ERASE)) 9) with false.
    apply andb_false_r. }
  repeat split.
  - unfold emits, history in *. cbn [trace]. cbn [rev]. rewrite T.
    unfold m0, unlocked. cbn [trace rev]. repeat rewrite <- app_assoc.
    reflexivity.
  - exact B1.
  - exact B2.
  - exact F.
  - rewrite S. apply Nat.mul_1_r.
  - apply locked_PELOCK.
  - rewrite Z.lor_spec, B2. reflexivity.
  - replace (4 * rounds len) with (4 * Z.of_nat (Z.to_nat (rounds len)))
      by (pose proof (rounds_range len Hlen); lia).
    replace addr with (addr + 4 * 0) by lia. exact E'.
Qed.

Lemma decides_intro (r : option (Z * machine)) (guard : Prop) (m : machine) :
  (guard -> r = Some (SEEPROM_OF, m)) ->
  (~ guard -> exists m', r = Some (SEEPROM_OK, m')) ->
  guard \/ ~ guard ->
  decides r guard.
Proof.
  intros Hy Hn [G|G].
  - rewrite (Hy G). cbn. split; split; intros H; try easy.
  - destruct (Hn G) as (m' & ->). cbn. split; split; intros H; try easy.
Qed.

Lemma wraps_below_dec (self : sEEPROM) (startOffset nbytes : Z) :
  wraps_below self startOffset nbytes \/ ~ wraps_below self startOffset nbytes.
Proof. unfold wraps_below. lia. Qed.

Lemma no_wrap_below_2_32 (self : sEEPROM) (startOffset nbytes : Z) :
  0 <= start self -> 0 <= startOffset -> 0 <= nbytes ->
  start self + startOffset + nbytes < 2 ^ 32 ->
  ~ wraps_below self startOffset nbytes.
Proof.
  intros Hs Ho Hn Hlt. unfold wraps_below, wrap32.
  rewrite !Z.mod_small by lia. lia.
Qed.

Lemma no_wrap_at_offset_0 (self : sEEPROM) (nbytes : Z) :
  ~ wraps_below self 0 nbytes.
Proof.
  unfold wraps_below.
  replace (start self + 0 + nbytes) with (start self + nbytes) by lia.
  apply Z.lt_irrefl.
Qed.

(** What [erase] does when [len] is not zero: the [len] words at
    [start + startOffset] are cleared and no other byte changes. *)
Lemma erase_clears_len_words
    (self : sEEPROM) (startOffset len : Z) (m : machine) :
  1 <= len < 2 ^ 16 ->
  startOffset mod 4 = 0 ->
  ~ wraps_below self startOffset (len * 4) ->
  exists m',
    erase self startOffset len m = Some (SEEPROM_OK, m') /\
    cleared (mem m) (mem m') (wrap32 (start self + startOffset)) (4 * len).
Proof.
  intros Hlen Ha G.
  destruct (erase_accepts self startOffset len m) as
    (m' & body & v1 & v2 & E & _ & _ & _ & _ & _ & _ & _ & C);
    [lia | exact Ha | exact G |].
  exists m'. split; [exact E|].
  unfold rounds in C. destruct (Z.eqb_spec len 0); [lia|exact C].
Qed.

(** ** The claims *)

(** C1 (the code differs from the claim): on the sector [start = 0x1000],
    [length = 64], [read(60, output, 8)] is not rejected although
    [60 + 8 > 64]: it returns [SEEPROM_OK], not [SEEPROM_OF], after eight byte
    loads, whatever the machine state and the output address. *)
Theorem C1_read_60_8_is_not_rejected (output : Z) (m : machine) :
  exists m' evs,
    read (mk_sEEPROM 0x1000 64) 60 output 8 m = Some (SEEPROM_OK, m') /\
    emits m m' evs /\
    count is_load evs = 8%nat /\
    SEEPROM_OK <> SEEPROM_OF /\
    60 + 8 > length (mk_sEEPROM 0x1000 64).
Proof.
  destruct (read_accepts (mk_sEEPROM 0x1000 64) 60 output 8 m)
    as (m' & evs & E & T & _ & _ & L & _).
  - lia.
  - unfold wraps_below. cbn. lia.
  - exists m', evs. split; [exact E|]. split; [exact T|]. split; [exact L|].
    split; [discriminate|]. cbn. lia.
Qed.

(** C2: for [read], [write] and [erase] (once its alignment test has passed)
    the status is [SEEPROM_OF] exactly when [start + startOffset + lenBytes],
    taken modulo [2^32], is strictly below [start + lenBytes] taken modulo
    [2^32] ([lenBytes] is [len] for [read] and [write] and [len * 4] for
    [erase]), and it is [SEEPROM_OK] otherwise.  The guard is not the
    comparison [startOffset + len > length]: a request that ends past the
    sector is accepted, and one inside the sector is rejected when the address
    sum wraps. *)
Theorem C2_bounds_check_is_a_wraparound_guard
    (self : sEEPROM) (startOffset buf len : Z) (m : machine) :
  0 <= len < 2 ^ 16 ->
  decides (read self startOffset buf len m)
    ((start self + startOffset + len) mod 2 ^ 32
       < (start self + len) mod 2 ^ 32) /\
  decides (write self startOffset buf len m)
    ((start self + startOffset + len) mod 2 ^ 32
       < (start self + len) mod 2 ^ 32) /\
  (startOffset mod 4 = 0 ->
   decides (erase self startOffset len m)
     ((start self + startOffset + len * 4) mod 2 ^ 32
        < (start self + len * 4) mod 2 ^ 32)) /\
  (60 + 8 > length (mk_sEEPROM 0x1000 64) /\
   status (read (mk_sEEPROM 0x1000 64) 60 buf 8 m) = Some SEEPROM_OK) /\
  (8 + 8 <= length (mk_sEEPROM 0xFFFFFFF0 64) /\
   status (read (mk_sEEPROM 0xFFFFFFF0 64) 8 buf 8 m) = Some SEEPROM_OF).
Proof.
  intros Hlen. split; [|split; [|split; [|split; split]]].
  - apply (decides_intro _ _ m).
    + apply read_rejects.
    + intros G. destruct (read_accepts self startOffset buf len m Hlen G)
        as (m' & _ & E & _). eauto.
    + apply wraps_below_dec.
  - apply (decides_intro _ _ m).
    + apply write_rejects.
    + intros G. destruct (write_accepts self startOffset buf len m G)
        as (m' & _ & E & _). eauto.
    + apply wraps_below_dec.
  - intros Ha. apply (decides_intro _ _ m).
    + apply erase_rejects. assumption.
    + intros G. destruct (erase_accepts self startOffset len m Hlen Ha G)
        as (m' & _ & _ & _ & E & _). eauto.
    + apply wraps_below_dec.
  - cbn. lia.
  - destruct (read_accepts (mk_sEEPROM 0x1000 64) 60 buf 8 m)
      as (m' & _ & E & _).
    + lia.
    + unfold wraps_below. cbn. lia.
    + rewrite E. reflexivity.
  - cbn. lia.
  - rewrite read_rejects; [reflexivity|]. unfold wraps_below. cbn. lia.
Qed.

(** C2 at [read(60, buf, 8)] and [erase(60, 8)] on a 64-byte sector at the
    platform base. *)
Lemma C2_witness :
  0 <= 8 < 2 ^ 16 /\ 60 mod 4 = 0 /\
  decides (read (mk_sEEPROM SEEPROM_START 64) 60 0x20000000 8
             (boot (fun _ => 0)))
    ((SEEPROM_START + 60 + 8) mod 2 ^ 32 < (SEEPROM_START + 8) mod 2 ^ 32) /\
  decides (erase (mk_sEEPROM SEEPROM_START 64) 60 8 (boot (fun _ => 0)))
    ((SEEPROM_START + 60 + 8 * 4) mod 2 ^ 32
       < (SEEPROM_START + 8 * 4) mod 2 ^ 32).
Proof.
  assert (H : 0 <= 8 < 2 ^ 16) by lia.
  split; [exact H|]. split; [reflexivity|].
  destruct (C2_bounds_check_is_a_wraparound_guard
              (mk_sEEPROM SEEPROM_START 64) 60 0x20000000 8
              (boot (fun _ => 0)) H) as (R & _ & E & _).
  exact (conj R (E eq_refl)).
Defined.

(** C7: [erase] with a [startOffset] that is not a multiple of 4 returns
    [SEEPROM_NOK], a status different from [SEEPROM_OF], and the machine it
    returns is the machine it was given: the same memory, the same registers,
    and not one event added to the log (no key write, no change of [PECR], no
    store). *)
Theorem C7_misaligned_erase_touches_nothing
    (self : sEEPROM) (startOffset len : Z) (m : machine) :
  startOffset mod 4 <> 0 ->
  erase self startOffset len m = Some (SEEPROM_NOK, m) /\
  SEEPROM_NOK <> SEEPROM_OF /\
  emits m m [].
Proof.
  intros Ha. split; [|split].
  - apply erase_misaligned. exact Ha.
  - discriminate.
  - apply emits_nil.
Qed.

(** C7 at [erase(2, 1)]. *)
Lemma C7_witness :
  2 mod 4 <> 0 /\
  erase (mk_sEEPROM SEEPROM_START 64) 2 1 (boot (fun _ => 0))
    = Some (SEEPROM_NOK, boot (fun _ => 0)).
Proof.
  assert (H : 2 mod 4 <> 0) by (cbn; lia).
  split; [exact H|].
  apply (C7_misaligned_erase_touches_nothing
           (mk_sEEPROM SEEPROM_START 64) 2 1 (boot (fun _ => 0)) H).
Defined.

(** C9: when [start + startOffset + len] stays below [2^32] for all 16-bit
    [startOffset] and [len] (as it does for the platform base [0x08080000]),
    neither [read] nor [write] ever returns [SEEPROM_OF]: both return
    [SEEPROM_OK] for every pair, also when the range lies far beyond the
    sector's [length]. *)
Theorem C9_overflow_branch_unreachable
    (self : sEEPROM) (startOffset buf len : Z) (m : machine) :
  0 <= start self ->
  start self + (2 ^ 16 - 1) + (2 ^ 16 - 1) < 2 ^ 32 ->
  0 <= startOffset < 2 ^ 16 ->
  0 <= len < 2 ^ 16 ->
  (exists m', read self startOffset buf len m = Some (SEEPROM_OK, m')) /\
  (exists m', write self startOffset buf len m = Some (SEEPROM_OK, m')).
Proof.
  intros Hs Htop Ho Hlen.
  assert (G : ~ wraps_below self startOffset len)
    by (apply no_wrap_below_2_32; lia).
  split.
  - destruct (read_accepts self startOffset buf len m Hlen G)
      as (m' & _ & E & _). eauto.
  - destruct (write_accepts self startOffset buf len m G)
      as (m' & _ & E & _). eauto.
Qed.

(** C9 at the platform base, for a range far beyond the 64-byte sector. *)
Lemma C9_witness :
  60000 + 60000 > length (mk_sEEPROM SEEPROM_START 64) /\
  (exists m', read (mk_sEEPROM SEEPROM_START 64) 60000 0x20000000 60000
                (boot (fun _ => 0)) = Some (SEEPROM_OK, m')) /\
  (exists m', write (mk_sEEPROM SEEPROM_START 64) 60000 0x20000000 60000
                (boot (fun _ => 0)) = Some (SEEPROM_OK, m')).
Proof.
  split; [reflexivity|].
  apply (C9_overflow_branch_unreachable
           (mk_sEEPROM SEEPROM_START 64) 60000 0x20000000 60000
           (boot (fun _ => 0))); unfold SEEPROM_START; cbn; lia.
Defined.

(** C10: in [erase] the alignment test comes first: when [startOffset] is not
    a multiple of 4 and the bounds guard would fire as well, the status is
    [SEEPROM_NOK] and not [SEEPROM_OF]. *)
Theorem C10_alignment_checked_before_bounds
    (self : sEEPROM) (startOffset len : Z) (m : machine) :
  startOffset mod 4 <> 0 ->
  wraps_below self startOffset (len * 4) ->
  status (erase self startOffset len m) = Some SEEPROM_NOK /\
  status (erase self startOffset len m) <> Some SEEPROM_OF.
Proof.
  intros Ha _. rewrite erase_misaligned by exact Ha. cbn.
  split; [reflexivity|discriminate].
Qed.

(** C10 at [start = 0xFFFFFFFF], [erase(1, 0)]: misaligned, and the address
    sum wraps. *)
Lemma C10_witness :
  status (erase (mk_sEEPROM 0xFFFFFFFF 64) 1 0 (boot (fun _ => 0)))
    = Some SEEPROM_NOK /\
  status (erase (mk_sEEPROM 0xFFFFFFFF 64) 1 0 (boot (fun _ => 0)))
    <> Some SEEPROM_OF.
Proof.
  apply (C10_alignment_checked_before_bounds
           (mk_sEEPROM 0xFFFFFFFF 64) 1 0 (boot (fun _ => 0))).
  - cbn. lia.
  - unfold wraps_below. cbn. lia.
Defined.

(** C8: a [write] or an [erase] whose bounds guard fires returns [SEEPROM_OF]
    and the machine it was given (no event, no register or memory change).
    Otherwise the call logs the busy-wait and the two keys of the unlock
    sequence first, then its stores (for [erase] between setting and clearing
    the ERASE bit of [PECR]), then the busy-wait and the write of [PECR] that
    sets PELOCK; the [PECR] it leaves has PELOCK set. *)
Theorem C8_mutations_are_bracketed_by_unlock_and_lock
    (self : sEEPROM) (startOffset value len : Z) (m : machine) :
  0 <= len < 2 ^ 16 ->
  (wraps_below self startOffset len ->
   write self startOffset value len m = Some (SEEPROM_OF, m)) /\
  (~ wraps_below self startOffset len ->
   exists m' body,
     write self startOffset value len m = Some (SEEPROM_OK, m') /\
     emits m m' ([EvBusyWait; EvKey PEKEY_VALUE_1; EvKey PEKEY_VALUE_2]
                   ++ body ++ [EvBusyWait; EvPecr (PECR m')]) /\
     Forall (fun e => is_copy e = true) body /\
     Z.testbit (PECR m') 0 = true) /\
  (startOffset mod 4 = 0 ->
   wraps_below self startOffset (len * 4) ->
   erase self startOffset len m = Some (SEEPROM_OF, m)) /\
  (startOffset mod 4 = 0 ->
   ~ wraps_below self startOffset (len * 4) ->
   exists m' body v1 v2,
     erase self startOffset len m = Some (SEEPROM_OK, m') /\
     emits m m' ([EvBusyWait; EvKey PEKEY_VALUE_1; EvKey PEKEY_VALUE_2;
                  EvPecr v1]
                   ++ body ++ [EvPecr v2; EvBusyWait; EvPecr (PECR m')]) /\
     Z.testbit v1 9 = true /\ Z.testbit v2 9 = false /\
     Forall (fun e => is_wipe e = true) body /\
     Z.testbit (PECR m') 0 = true /\
     Z.testbit (PECR m') 9 = false).
Proof.
  intros Hlen. split; [|split; [|split]].
  - apply write_rejects.
  - apply write_accepts.
  - apply erase_rejects.
  - intros Ha G.
    destruct (erase_accepts self startOffset len m Hlen Ha G)
      as (m' & body & v1 & v2 & E & T & B1 & B2 & F & _ & L & R & _).
    exists m', body, v1, v2. auto 10.
Qed.

(** C8 at [write(0, value, 6)] and [erase(0, 6)]. *)
Lemma C8_witness :
  0 <= 6 < 2 ^ 16 /\
  (exists m' body,
     write (mk_sEEPROM SEEPROM_START 64) 0 0x20000000 6 (boot (fun _ => 0))
       = Some (SEEPROM_OK, m') /\
     emits (boot (fun _ => 0)) m'
           ([EvBusyWait; EvKey PEKEY_VALUE_1; EvKey PEKEY_VALUE_2]
              ++ body ++ [EvBusyWait; EvPecr (PECR m')]) /\
     Forall (fun e => is_copy e = true) body /\
     Z.testbit (PECR m') 0 = true) /\
  (exists m', erase (mk_sEEPROM SEEPROM_START 64) 0 6 (boot (fun _ => 0))
              = Some (SEEPROM_OK, m') /\ Z.testbit (PECR m') 0 = true).
Proof.
  assert (H : 0 <= 6 < 2 ^ 16) by lia.
  split; [exact H|].
  destruct (C8_mutations_are_bracketed_by_unlock_and_lock
              (mk_sEEPROM SEEPROM_START 64) 0 0x20000000 6
              (boot (fun _ => 0)) H) as (_ & W & _ & E).
  split.
  - apply W. apply no_wrap_at_offset_0.
  - destruct (E eq_refl (no_wrap_at_offset_0 _ _))
      as (m' & _ & _ & _ & Q & _ & _ & _ & _ & L & _).
    exists m'. exact (conj Q L).
Defined.

(** C5 (the code differs from the claim): [read(0, output, 0)] returns
    [SEEPROM_OK] but its loop body runs [2^16] times, not zero times and not
    once: the test [idx != len] first fails when the 16-bit index has wrapped
    to zero, after [2^16] byte loads and [2^16] byte stores.
    [write(0, value, 0)] returns [SEEPROM_OK] and logs the unlock and the lock
    only: no load, no store, and the memory is unchanged. *)
Theorem C5_read_of_zero_bytes_runs_the_loop
    (self : sEEPROM) (buf : Z) (m : machine) :
  (exists m' evs,
     read self 0 buf 0 m = Some (SEEPROM_OK, m') /\
     emits m m' evs /\
     Z.of_nat (count is_load evs) = 2 ^ 16 /\
     Z.of_nat (count is_store evs) = 2 ^ 16) /\
  (exists m',
     write self 0 buf 0 m = Some (SEEPROM_OK, m') /\
     emits m m' [EvBusyWait; EvKey PEKEY_VALUE_1; EvKey PEKEY_VALUE_2;
                 EvBusyWait; EvPecr (PECR m')] /\
     mem m' = mem m).
Proof.
  split.
  - destruct (read_accepts self 0 buf 0 m) as (m' & evs & E & T & _ & _ & L & S);
      [lia | apply no_wrap_at_offset_0 |].
    exists m', evs. rewrite L, S, rounds_0. auto.
  - pose proof (no_wrap_at_offset_0 self 0) as G.
    unfold wraps_below in G. apply Z.ltb_nlt in G.
    unfold write. rewrite G.
    unfold bind at 1. rewrite unlockEEPROM_eq.
    eexists. split; [reflexivity|]. split; [log_eq | reflexivity].
Qed.

(** C6 (the code differs from the claim): [erase(0, 0)] passes both tests and
    returns [SEEPROM_OK], but it does not leave the memory alone as a request
    for zero words should: the loop runs [2^16] times, logs [2^16] word stores
    and clears the [4 * 2^16] bytes that start at [start]. *)
Theorem C6_erase_of_zero_words_clears_65536_words
    (self : sEEPROM) (m : machine) :
  exists m' body v1 v2,
    erase self 0 0 m = Some (SEEPROM_OK, m') /\
    emits m m' ([EvBusyWait; EvKey PEKEY_VALUE_1; EvKey PEKEY_VALUE_2;
                 EvPecr v1]
                  ++ body ++ [EvPecr v2; EvBusyWait; EvPecr (PECR m')]) /\
    Z.of_nat (count is_store body) = 2 ^ 16 /\
    (forall j, 0 <= j < 4 * 2 ^ 16 -> mem m' (wrap32 (start self + j)) = 0).
Proof.
  destruct (erase_accepts self 0 0 m)
    as (m' & body & v1 & v2 & E & T & _ & _ & _ & S & _ & _ & C);
    [lia | reflexivity | apply no_wrap_at_offset_0 |].
  exists m', body, v1, v2. rewrite S.
  split; [exact E|]. split; [exact T|]. split; [exact rounds_0|].
  intros j Hj.
  destruct (C (wrap32 (start self + j))) as [[_ Z0]|[N _]]; [exact Z0|].
  exfalso. apply N. exists j. split; [exact Hj|].
  unfold wrap32. rewrite Z.add_0_r, Z.add_mod_idemp_l by lia. reflexivity.
Qed.

(** C3 (the code differs from the claim): on the 2048-byte sector at
    [SEEPROM_START], with the buffer [1; 2; 3; 4; 5; 6] followed in RAM by
    [7; 8; 9; 10; ...], all requests inside the sector:
    - [len = 6] at offset 0 reads back [1; 2; 3; 4; 9; 10];
    - [len = 1] at offset 1 reads back [2], not [1];
    - [len = 2] at offset 4 reads back [9; 10], not [1; 2];
    - [len = 8] at offset 4, a multiple of 4, reads back the buffer. *)
Theorem C3_write_then_read_does_not_round_trip :
  bytes_at (boot demo_ram) value_addr 8 = [1; 2; 3; 4; 5; 6; 7; 8] /\
  observe (write_then_read demo 0 value_addr output_addr 6 (boot demo_ram))
          output_addr 6
    = Some ((SEEPROM_OK, SEEPROM_OK), [1; 2; 3; 4; 9; 10]) /\
  observe (write_then_read demo 1 value_addr output_addr 1 (boot demo_ram))
          output_addr 1
    = Some ((SEEPROM_OK, SEEPROM_OK), [2]) /\
  observe (write_then_read demo 4 value_addr output_addr 2 (boot demo_ram))
          output_addr 2
    = Some ((SEEPROM_OK, SEEPROM_OK), [9; 10]) /\
  observe (write_then_read demo 4 value_addr output_addr 8 (boot demo_ram))
          output_addr 8
    = Some ((SEEPROM_OK, SEEPROM_OK), [1; 2; 3; 4; 5; 6; 7; 8]).
Proof. repeat split; vm_compute; reflexivity. Qed.

(** C4 (the code differs from the claim): [write(0, value, 6)], on any sector
    and any machine, writes one 4-byte element and then one 2-byte element, in
    that order, and advances the destination by 4 in between; but the 2-byte
    element is loaded from [value + 8], not from [value + 4]: the source
    pointer is advanced by the destination offset, counted in 2-byte elements.
    In the scenario, destination bytes 4 and 5 receive [value[8]] and
    [value[9]]. *)
Theorem C4_second_chunk_is_read_from_the_wrong_source
    (self : sEEPROM) (value : Z) (m : machine) :
  (exists m' v4 v2,
     write self 0 value 6 m = Some (SEEPROM_OK, m') /\
     emits m m'
       [EvBusyWait; EvKey PEKEY_VALUE_1; EvKey PEKEY_VALUE_2;
        EvBusyWait; EvLoad 4 value; EvStore 4 (wrap32 (start self)) v4;
        EvBusyWait; EvLoad 2 (value + 8);
        EvStore 2 (wrap32 (start self + 4)) v2;
        EvBusyWait; EvPecr (PECR m')]) /\
  bytes_at (boot demo_ram) value_addr 6 = [1; 2; 3; 4; 5; 6] /\
  observe_log (write demo 0 value_addr 6 (boot demo_ram)) SEEPROM_START 6
  = Some (SEEPROM_OK,
          [EvBusyWait; EvKey PEKEY_VALUE_1; EvKey PEKEY_VALUE_2;
           EvBusyWait; EvLoad 4 value_addr;
           EvStore 4 SEEPROM_START 0x04030201;
           EvBusyWait; EvLoad 2 (value_addr + 8);
           EvStore 2 (SEEPROM_START + 4) 0x0A09;
           EvBusyWait; EvPecr FLASH_PECR_PELOCK],
          [1; 2; 3; 4; 9; 10]).
Proof.
  split; [|split; vm_compute; reflexivity].
  pose proof (no_wrap_at_offset_0 self 6) as G.
  unfold wraps_below in G. apply Z.ltb_nlt in G.
  unfold write. rewrite G.
  unfold bind at 1. rewrite unlockEEPROM_eq.
  change (wrap16 (6 / 4)) with 1.
  change (wrap16 (wrap16 (6 mod 4) / 2)) with 1.
  change (wrap16 (wrap16 (6 mod 4) mod 2)) with 0.
  change (wrap16 (0 + 1 * 4)) with 4.
  change (wrap16 (4 + 1 * 2)) with 6.
  cbn [Z.eqb]. unfold write_T.
  unfold bind. rewrite !do_while_run by lia.
  change (Z.to_nat (rounds 1)) with 1%nat. cbn [run].
  unfold bind, write_T_step, bind, busy_wait, load, store, ret.
  cbn [log mem PECR PEKEYR trace].
  unfold lockEEPROM, bind, busy_wait, read_PECR, write_PECR.
  cbn [log mem PECR PEKEYR trace].
  eexists _, _, _. split; [reflexivity|].
  unfold emits, history. cbn [trace unlocked rev app PECR].
  repeat rewrite <- app_assoc. cbn [app]. f_equal.
  repeat (f_equal; try lia).
  replace (start self + 0) with (start self) by lia. lia.
Qed.

(** * More of the driver *)

(** ** Addresses and little-endian elements *)

Lemma wrap32_idem_add (a j : Z) : wrap32 (wrap32 a + j) = wrap32 (a + j).
Proof. unfold wrap32. apply Z.add_mod_idemp_l. lia. Qed.

Lemma wrap32_add_inj (a i j : Z) :
  0 <= i < 2 ^ 32 -> 0 <= j < 2 ^ 32 ->
  wrap32 (a + i) = wrap32 (a + j) -> i = j.
Proof.
  unfold wrap32. intros Hi Hj H.
  pose proof (Z.div_mod (a + i) (2 ^ 32)) as Di.
  pose proof (Z.div_mod (a + j) (2 ^ 32)) as Dj.
  rewrite H in Di. lia.
Qed.

Lemma in_span_shift (base n k x : Z) :
  0 <= k -> in_span (base + k) n x -> in_span base (k + n) x.
Proof.
  intros Hk (j & Hj & ->). exists (k + j). split; [lia|]. f_equal. lia.
Qed.

Lemma in_span_weaken (base n n' x : Z) :
  n <= n' -> in_span base n x -> in_span base n' x.
Proof. intros Hn (j & Hj & ->). exists j. split; [lia|reflexivity]. Qed.

Lemma store_le_bytes (w : nat) :
  forall f a v, bytes_mem f -> bytes_mem (store_le f a w v).
Proof.
  induction w as [|w IH]; intros f a v Hf; cbn [store_le]; [exact Hf|].
  apply IH. intros x. unfold upd. destruct (x =? wrap32 a).
  - apply Z.mod_pos_bound. lia.
  - apply Hf.
Qed.

Lemma load_le_range (w : nat) :
  forall f a, bytes_mem f -> 0 <= load_le f a w.
Proof.
  induction w as [|w IH]; intros f a Hf; cbn [load_le]; [lia|].
  pose proof (Hf (wrap32 a)). pose proof (IH f (a + 1) Hf). lia.
Qed.

(** Byte [k] of the element loaded at [a] is the byte at [a + k]. *)
Lemma load_le_byte (w : nat) :
  forall f a k, bytes_mem f -> 0 <= k < Z.of_nat w ->
    (load_le f a w / 2 ^ (8 * k)) mod 2 ^ 8 = f (wrap32 (a + k)).
Proof.
  induction w as [|w IH]; intros f a k Hf Hk; [lia|].
  cbn [load_le]. pose proof (Hf (wrap32 a)) as Hb.
  destruct (Z.eq_dec k 0) as [->|Hk0].
  - rewrite Z.mul_0_r, Z.pow_0_r, Z.div_1_r, Z.add_0_r.
    rewrite (Z.mul_comm (2 ^ 8)), Z.mod_add by lia.
    apply Z.mod_small. exact Hb.
  - replace (8 * k) with (8 + 8 * (k - 1)) by lia.
    rewrite Z.pow_add_r, <- Z.div_div by lia.
    replace ((f (wrap32 a) + 2 ^ 8 * load_le f (a + 1) w) / 2 ^ 8)
      with (load_le f (a + 1) w).
    + rewrite IH by (assumption || lia).
      replace (a + 1 + (k - 1)) with (a + k) by lia. reflexivity.
    + rewrite (Z.mul_comm (2 ^ 8)), Z.div_add by lia.
      rewrite (Z.div_small (f (wrap32 a))) by exact Hb. lia.
Qed.

(** The memory after a store, cell by cell: the last byte written to a cell
    is the one it holds. *)
Lemma store_le_cases (w : nat) :
  forall f a v x,
    (exists k, 0 <= k < Z.of_nat w /\ x = wrap32 (a + k) /\
               store_le f a w v x = (v / 2 ^ (8 * k)) mod 2 ^ 8)
    \/ (~ in_span a (Z.of_nat w) x /\ store_le f a w v x = f x).
Proof.
  induction w as [|w IH]; intros f a v x.
  - right. split; [|reflexivity]. intros (j & Hj & _). lia.
  - cbn [store_le].
    destruct (IH (upd f (wrap32 a) (v mod 2 ^ 8)) (a + 1) (v / 2 ^ 8) x)
      as [(k & Hk & -> & E)|[N E]].
    + left. exists (k + 1). split; [lia|]. split; [f_equal; lia|].
      rewrite E. replace (8 * (k + 1)) with (8 + 8 * k) by lia.
      rewrite Z.pow_add_r, Z.div_div by lia. reflexivity.
    + rewrite E. unfold upd. destruct (Z.eqb_spec x (wrap32 a)) as [->|Hne].
      * left. exists 0. split; [lia|]. split; [f_equal; lia|].
        rewrite Z.mul_0_r, Z.pow_0_r, Z.div_1_r. reflexivity.
      * right. split; [|reflexivity]. intros (j & Hj & ->).
        destruct (Z.eq_dec j 0) as [->|Hj0].
        -- apply Hne. f_equal. lia.
        -- apply N. exists (j - 1). split; [lia|]. f_equal. lia.
Qed.

(** One element copied: load at [src], store at [dst]. *)
Lemma copy_element (w : nat) (f : Z -> Z) (dst src : Z) :
  bytes_mem f -> Z.of_nat w <= 2 ^ 32 ->
  copied f (store_le f dst w (load_le f src w)) dst src (Z.of_nat w).
Proof.
  intros Hf Hw x.
  destruct (store_le_cases w f dst (load_le f src w) x)
    as [(k & Hk & -> & E)|[N E]].
  - left. exists k. split; [exact Hk|]. split; [reflexivity|].
    rewrite E. apply load_le_byte; assumption.
  - right. split; assumption.
Qed.

(** ** Copies *)

Lemma copied_nil (f : Z -> Z) (dst src : Z) : copied f f dst src 0.
Proof. intros x. right. split; [|reflexivity]. intros (j & Hj & _). lia. Qed.

Lemma copied_app (f g h : Z -> Z) (dst src n1 n2 : Z) :
  0 <= n1 -> 0 <= n2 ->
  apart src (n1 + n2) dst (n1 + n2) ->
  copied f g dst src n1 ->
  copied g h (dst + n1) (src + n1) n2 ->
  copied f h dst src (n1 + n2).
Proof.
  intros H1 H2 Hap Hfg Hgh x.
  destruct (Hgh x) as [(j & Hj & -> & E)|[N E]].
  - left. exists (n1 + j). split; [lia|].
    replace (dst + (n1 + j)) with (dst + n1 + j) by lia.
    replace (src + (n1 + j)) with (src + n1 + j) by lia.
    split; [reflexivity|]. rewrite E.
    destruct (Hfg (wrap32 (src + n1 + j))) as [(i & Hi & A & _)|[_ E']];
      [|exact E'].
    exfalso. apply (Hap (n1 + j) i); [lia | lia |].
    replace (src + (n1 + j)) with (src + n1 + j) by lia. exact A.
  - rewrite E. destruct (Hfg x) as [(i & Hi & -> & E')|[N' E']].
    + left. exists i. split; [lia|]. split; [reflexivity|exact E'].
    + right. split; [|exact E']. intros (j & Hj & ->).
      destruct (Z_lt_ge_dec j n1) as [Hlt|Hge].
      * apply N'. exists j. split; [lia|reflexivity].
      * apply N. exists (j - n1). split; [lia|]. f_equal. lia.
Qed.

(** What a copy leaves at the destination and elsewhere. *)
Lemma copied_at (f g : Z -> Z) (dst src n j : Z) :
  n <= 2 ^ 32 -> copied f g dst src n -> 0 <= j < n ->
  g (wrap32 (dst + j)) = f (wrap32 (src + j)).
Proof.
  intros Hn H Hj.
  destruct (H (wrap32 (dst + j))) as [(i & Hi & A & E)|[N _]].
  - apply wrap32_add_inj in A; [subst i; exact E | lia | lia].
  - exfalso. apply N. exists j. split; [exact Hj|reflexivity].
Qed.

Lemma copied_outside (f g : Z -> Z) (dst src n : Z) :
  copied f g dst src n -> same_outside f g dst n.
Proof.
  intros H x N. destruct (H x) as [(j & Hj & -> & _)|[_ E]]; [|exact E].
  exfalso. apply N. exists j. split; [exact Hj|reflexivity].
Qed.

Lemma apart_sub (a n b k a' n' b' k' da db : Z) :
  apart a n b k ->
  a' = a + da -> b' = b + db ->
  0 <= da -> da + n' <= n -> 0 <= db -> db + k' <= k ->
  apart a' n' b' k'.
Proof.
  intros H -> -> Hda Hn Hdb Hk i j Hi Hj.
  replace (a + da + i) with (a + (da + i)) by lia.
  replace (b + db + j) with (b + (db + j)) by lia.
  apply H; lia.
Qed.

Section CopyLoop.
Variable body : Z -> M unit.
Variable w : nat.
Variables dst src : Z.
Hypothesis body_mem : forall idx m, exists m1,
  body idx m = Some (tt, m1) /\
  mem m1 = store_le (mem m) (dst + Z.of_nat w * idx) w
             (load_le (mem m) (src + Z.of_nat w * idx) w).

Lemma run_copies (n : nat) :
  forall idx m m',
    run n body idx m = Some (tt, m') ->
    bytes_mem (mem m) ->
    Z.of_nat w * Z.of_nat n <= 2 ^ 32 ->
    apart (src + Z.of_nat w * idx) (Z.of_nat w * Z.of_nat n)
          (dst + Z.of_nat w * idx) (Z.of_nat w * Z.of_nat n) ->
    copied (mem m) (mem m') (dst + Z.of_nat w * idx) (src + Z.of_nat w * idx)
           (Z.of_nat w * Z.of_nat n)
    /\ bytes_mem (mem m').
Proof.
  induction n as [|n IH]; intros idx m m' E Hb Hn Hap.
  - cbn in E. injection E as <-. rewrite Z.mul_0_r.
    split; [apply copied_nil | exact Hb].
  - cbn [run] in E. unfold bind at 1 in E.
    destruct (body_mem idx m) as (m1 & E1 & M1). rewrite E1 in E.
    assert (Hb1 : bytes_mem (mem m1)) by (rewrite M1; apply store_le_bytes, Hb).
    destruct (IH (idx + 1) m1 m' E Hb1) as [C B]; [lia | |].
    { eapply apart_sub; [exact Hap | | | | | |];
        try (instantiate (1 := Z.of_nat w)); nia. }
    split; [|exact B].
    replace (Z.of_nat w * Z.of_nat (S n))
      with (Z.of_nat w + Z.of_nat w * Z.of_nat n) in * by lia.
    apply copied_app with (g := mem m1); [lia | nia | exact Hap | |].
    + rewrite M1. apply copy_element; [exact Hb | nia].
    + replace (dst + Z.of_nat w * idx + Z.of_nat w)
        with (dst + Z.of_nat w * (idx + 1)) by lia.
      replace (src + Z.of_nat w * idx + Z.of_nat w)
        with (src + Z.of_nat w * (idx + 1)) by lia.
      exact C.
Qed.
End CopyLoop.

(** ** [read] *)

(** Closes an arithmetic side condition on the addresses of a scenario. *)
Ltac scenario_arith :=
  unfold wraps_below, apart, wrap32, SEEPROM_START, output_addr, value_addr;
  cbn [start length]; intros;
  Z.div_mod_to_equations; lia.

Lemma read_step_mem (addr output idx : Z) (m : machine) :
  exists m1,
    read_step addr output idx m = Some (tt, m1) /\
    mem m1 = store_le (mem m) (output + Z.of_nat 1 * idx) 1
               (load_le (mem m) (addr + Z.of_nat 1 * idx) 1).
Proof.
  eexists. split; [reflexivity|]. cbn [mem log].
  replace (Z.of_nat 1 * idx) with idx by lia. reflexivity.
Qed.

Lemma read_step_access (addr output idx : Z) :
  round_spec is_access 1 1 (read_step addr output idx).
Proof.
  intros m. eexists _, [EvLoad 1 (addr + idx); EvStore 1 (output + idx) _].
  cbn. repeat split; try log_eq; repeat constructor.
Qed.

Lemma read_as_run (self : sEEPROM) (startOffset output len : Z) (m : machine) :
  0 <= len < 2 ^ 16 ->
  ~ wraps_below self startOffset len ->
  exists m',
    run (Z.to_nat (rounds len))
        (read_step (wrap32 (start self + startOffset)) output) 0 m
      = Some (tt, m') /\
    read self startOffset output len m = Some (SEEPROM_OK, m').
Proof.
  intros Hlen G. unfold wraps_below in G. apply Z.ltb_nlt in G.
  destruct (run_rounds _ _ _ _
              (read_step_round (wrap32 (start self + startOffset)) output)
              (Z.to_nat (rounds len)) 0 m) as (m' & _ & E & _).
  exists m'. split; [exact E|].
  unfold read. rewrite G. unfold bind. rewrite do_while_run, E by exact Hlen.
  reflexivity.
Qed.

Lemma rounds_pos (len : Z) : 1 <= len -> rounds len = len.
Proof. intros H. unfold rounds. destruct (Z.eqb_spec len 0); lia. Qed.

(** What [read] leaves in memory. *)
Lemma read_copy
    (self : sEEPROM) (startOffset output len : Z) (m : machine) :
  1 <= len < 2 ^ 16 ->
  ~ wraps_below self startOffset len ->
  bytes_mem (mem m) ->
  apart (wrap32 (start self + startOffset)) len output len ->
  exists m',
    read self startOffset output len m = Some (SEEPROM_OK, m') /\
    (forall j, 0 <= j < len ->
       mem m' (wrap32 (output + j))
         = mem m (wrap32 (start self + startOffset + j))) /\
    same_outside (mem m) (mem m') output len /\
    bytes_mem (mem m').
Proof.
  intros Hlen G Hb Hap.
  destruct (read_as_run self startOffset output len m) as (m' & R & E);
    [lia | exact G |].
  exists m'. split; [exact E|].
  rewrite rounds_pos in R by lia.
  destruct (run_copies _ 1 output (wrap32 (start self + startOffset))
              (read_step_mem _ _) (Z.to_nat len) 0 m m' R Hb) as [C B].
  - lia.
  - eapply apart_sub; [exact Hap | | | | | |];
      try (instantiate (1 := 0)); lia.
  - replace (Z.of_nat 1 * Z.of_nat (Z.to_nat len)) with len in C by lia.
    replace (output + Z.of_nat 1 * 0) with output in C by lia.
    replace (wrap32 (start self + startOffset) + Z.of_nat 1 * 0)
      with (wrap32 (start self + startOffset)) in C by lia.
    split; [|split; [|exact B]].
    + intros j Hj. rewrite <- (wrap32_idem_add (start self + startOffset) j).
      apply (copied_at _ _ _ _ len); [lia | exact C | exact Hj].
    + eapply copied_outside, C.
Qed.


(** X1: a [read] of [1 <= len] bytes that passes the guard, from a byte memory
    and into an [output] range that shares no address with the range read,
    returns [SEEPROM_OK]; afterwards [output[j]] is the byte that was at
    [start + startOffset + j], for every [j < len], and no cell outside the
    [len] bytes at [output] has changed. *)
Theorem X1_read_copies_the_bytes
    (self : sEEPROM) (startOffset output len : Z) (m : machine) :
  1 <= len < 2 ^ 16 ->
  ~ wraps_below self startOffset len ->
  bytes_mem (mem m) ->
  apart (wrap32 (start self + startOffset)) len output len ->
  exists m',
    read self startOffset output len m = Some (SEEPROM_OK, m') /\
    (forall j, 0 <= j < len ->
       mem m' (wrap32 (output + j))
         = mem m (wrap32 (start self + startOffset + j))) /\
    same_outside (mem m) (mem m') output len.
Proof.
  intros Hlen G Hb Hap.
  destruct (read_copy self startOffset output len m Hlen G Hb Hap)
    as (m' & E & C & O & _).
  exists m'. auto.
Qed.

(** X1 on the 64-byte sector at the platform base: [read(4, output, 8)] from a
    memory of zero bytes. *)
Lemma X1_witness :
  exists m',
    read (mk_sEEPROM SEEPROM_START 64) 4 output_addr 8 (boot (fun _ => 0))
      = Some (SEEPROM_OK, m') /\
    (forall j, 0 <= j < 8 ->
       mem m' (wrap32 (output_addr + j))
         = mem (boot (fun _ => 0)) (wrap32 (SEEPROM_START + 4 + j))) /\
    same_outside (mem (boot (fun _ => 0))) (mem m') output_addr 8.
Proof.
  apply (X1_read_copies_the_bytes
           (mk_sEEPROM SEEPROM_START 64) 4 output_addr 8 (boot (fun _ => 0))).
  - lia.
  - scenario_arith.
  - intros a. cbn. lia.
  - scenario_arith.
Defined.

(** X2: [read] never touches the FLASH peripheral: whatever its arguments and
    its status, [PECR] and [PEKEYR] are as before and the log gains only loads
    and stores (no busy-wait, no key, no write of [PECR]). *)
Theorem X2_read_leaves_the_controller_alone
    (self : sEEPROM) (startOffset output len : Z) (m : machine) :
  0 <= len < 2 ^ 16 ->
  exists st m' evs,
    read self startOffset output len m = Some (st, m') /\
    PECR m' = PECR m /\ PEKEYR m' = PEKEYR m /\
    emits m m' evs /\
    Forall (fun e => is_access e = true) evs.
Proof.
  intros Hlen. unfold read.
  destruct (wrap32 (start self + startOffset + len) <? wrap32 (start self + len)).
  - exists SEEPROM_OF, m, []. cbn. auto using emits_nil.
  - destruct (do_while_rounds _ _ _ _
                (read_step_access (wrap32 (start self + startOffset)) output)
                len Hlen m) as (m' & evs & E & P & K & T & F & _).
    exists SEEPROM_OK, m', evs. unfold bind. rewrite E. cbn. auto.
Qed.

Lemma X2_witness :
  exists st m' evs,
    read (mk_sEEPROM SEEPROM_START 64) 60 output_addr 8 (boot (fun _ => 0))
      = Some (st, m') /\
    PECR m' = PECR (boot (fun _ => 0)) /\
    PEKEYR m' = PEKEYR (boot (fun _ => 0)) /\
    emits (boot (fun _ => 0)) m' evs /\
    Forall (fun e => is_access e = true) evs.
Proof.
  apply (X2_read_leaves_the_controller_alone
           (mk_sEEPROM SEEPROM_START 64) 60 output_addr 8 (boot (fun _ => 0))).
  lia.
Defined.

(** ** [write<T>] and [write] *)

Lemma write_T_step_mem (w : nat) (startAddr value idx : Z) (m : machine) :
  exists m1,
    write_T_step w startAddr value idx m = Some (tt, m1) /\
    mem m1 = store_le (mem m) (startAddr + Z.of_nat w * idx) w
               (load_le (mem m) (value + Z.of_nat w * idx) w).
Proof. eexists. split; reflexivity. Qed.

Lemma write_T_as_run (w : nat) (startAddr value len : Z) (m : machine) :
  0 <= len < 2 ^ 16 ->
  exists m',
    run (Z.to_nat (rounds len)) (write_T_step w startAddr value) 0 m
      = Some (tt, m') /\
    write_T w startAddr value len m = Some (tt, m') /\
    PECR m' = PECR m /\ PEKEYR m' = PEKEYR m.
Proof.
  intros Hlen.
  destruct (run_rounds _ _ _ _ (write_T_step_round w startAddr value)
              (Z.to_nat (rounds len)) 0 m) as (m' & _ & E & P & K & _).
  exists m'. split; [exact E|]. split; [|auto].
  unfold write_T. rewrite do_while_run by exact Hlen. exact E.
Qed.

(** What [write<T>] leaves in memory. *)
Lemma write_T_copy (w : nat) (startAddr value len : Z) (m : machine) :
  1 <= len < 2 ^ 16 ->
  Z.of_nat w * len <= 2 ^ 32 ->
  bytes_mem (mem m) ->
  apart value (Z.of_nat w * len) startAddr (Z.of_nat w * len) ->
  exists m',
    write_T w startAddr value len m = Some (tt, m') /\
    PECR m' = PECR m /\ PEKEYR m' = PEKEYR m /\
    (forall j, 0 <= j < Z.of_nat w * len ->
       mem m' (wrap32 (startAddr + j)) = mem m (wrap32 (value + j))) /\
    same_outside (mem m) (mem m') startAddr (Z.of_nat w * len) /\
    bytes_mem (mem m').
Proof.
  intros Hlen Hw Hb Hap.
  destruct (write_T_as_run w startAddr value len m) as (m' & R & E & P & K);
    [lia|].
  exists m'. split; [exact E|]. split; [exact P|]. split; [exact K|].
  rewrite rounds_pos in R by lia.
  destruct (run_copies _ w startAddr value (write_T_step_mem w _ _)
              (Z.to_nat len) 0 m m' R Hb) as [C B].
  - lia.
  - eapply apart_sub; [exact Hap | | | | | |];
      try (instantiate (1 := 0)); lia.
  - replace (Z.of_nat (Z.to_nat len)) with len in C by lia.
    replace (startAddr + Z.of_nat w * 0) with startAddr in C by lia.
    replace (value + Z.of_nat w * 0) with value in C by lia.
    split; [|split; [|exact B]].
    + intros j Hj. apply (copied_at _ _ _ _ (Z.of_nat w * len));
        [exact Hw | exact C | exact Hj].
    + eapply copied_outside, C.
Qed.

(** X3: the private template [write<T>] with [1 <= len] elements of
    [w = sizeof(T)] bytes, from a byte memory and with no address shared
    between the source and the destination ranges, copies the [w * len] bytes
    at [value] to [startAddr], byte for byte, changes no other cell and leaves
    [PECR] and [PEKEYR] alone. *)
Theorem X3_write_T_copies_the_elements
    (w : nat) (startAddr value len : Z) (m : machine) :
  1 <= len < 2 ^ 16 ->
  Z.of_nat w * len <= 2 ^ 32 ->
  bytes_mem (mem m) ->
  apart value (Z.of_nat w * len) startAddr (Z.of_nat w * len) ->
  exists m',
    write_T w startAddr value len m = Some (tt, m') /\
    PECR m' = PECR m /\ PEKEYR m' = PEKEYR m /\
    (forall j, 0 <= j < Z.of_nat w * len ->
       mem m' (wrap32 (startAddr + j)) = mem m (wrap32 (value + j))) /\
    same_outside (mem m) (mem m') startAddr (Z.of_nat w * len).
Proof.
  intros Hlen Hw Hb Hap.
  destruct (write_T_copy w startAddr value len m Hlen Hw Hb Hap)
    as (m' & E & P & K & C & O & _).
  exists m'. auto.
Qed.

(** X3 for three 2-byte elements from the buffer of the scenario to the start
    of the EEPROM. *)
Lemma X3_witness :
  exists m',
    write_T 2 SEEPROM_START value_addr 3 (boot demo_ram) = Some (tt, m') /\
    PECR m' = PECR (boot demo_ram) /\ PEKEYR m' = PEKEYR (boot demo_ram) /\
    (forall j, 0 <= j < Z.of_nat 2 * 3 ->
       mem m' (wrap32 (SEEPROM_START + j))
         = mem (boot demo_ram) (wrap32 (value_addr + j))) /\
    same_outside (mem (boot demo_ram)) (mem m') SEEPROM_START (Z.of_nat 2 * 3).
Proof.
  apply (X3_write_T_copies_the_elements 2 SEEPROM_START value_addr 3
           (boot demo_ram)).
  - lia.
  - cbn. lia.
  - intros a. cbn [mem boot]. unfold demo_ram, value_addr.
    destruct (_ && _) eqn:E; lia.
  - scenario_arith.
Defined.

Lemma demo_ram_bytes : bytes_mem (mem (boot demo_ram)).
Proof.
  intros a. cbn [mem boot]. unfold demo_ram, value_addr.
  destruct (_ && _) eqn:E; lia.
Qed.

(** [write] of whole 4-byte elements: the only chunk group is the first. *)
Lemma write_words_copy
    (self : sEEPROM) (startOffset value len : Z) (m : machine) :
  1 <= len < 2 ^ 16 ->
  len mod 4 = 0 ->
  ~ wraps_below self startOffset len ->
  bytes_mem (mem m) ->
  apart value len (wrap32 (start self + startOffset)) len ->
  exists m',
    write self startOffset value len m = Some (SEEPROM_OK, m') /\
    (forall j, 0 <= j < len ->
       mem m' (wrap32 (start self + startOffset + j))
         = mem m (wrap32 (value + j))) /\
    same_outside (mem m) (mem m') (wrap32 (start self + startOffset)) len /\
    bytes_mem (mem m').
Proof.
  intros Hlen H4 G Hb Hap.
  unfold wraps_below in G. apply Z.ltb_nlt in G.
  assert (Hq : len = 4 * (len / 4)).
  { pose proof (Z.div_mod len 4). lia. }
  assert (Hq1 : 1 <= len / 4 < 2 ^ 16) by lia.
  destruct (write_T_copy 4 (wrap32 (start self + startOffset)) value (len / 4)
              (unlocked m)) as (m1 & E1 & _ & _ & C & O & B).
  - exact Hq1.
  - lia.
  - exact Hb.
  - replace (Z.of_nat 4 * (len / 4)) with len by lia. exact Hap.
  - replace (Z.of_nat 4 * (len / 4)) with len in C, O by lia.
    unfold write. rewrite G. unfold bind at 1. rewrite unlockEEPROM_eq.
    rewrite H4. change (wrap16 (wrap16 0 / 2)) with 0.
    change (wrap16 (wrap16 0 mod 2)) with 0.
    rewrite (wrap16_small (len / 4)) by lia.
    destruct (Z.eqb_spec (len / 4) 0) as [H0|_]; [lia|].
    cbn [Z.eqb]. unfold bind. rewrite E1. cbn [ret].
    rewrite lockEEPROM_eq.
    eexists. split; [reflexivity|]. cbn [mem].
    split; [|split; [exact O | exact B]].
    intros j Hj. rewrite <- (wrap32_idem_add (start self + startOffset) j).
    apply C. exact Hj.
Qed.

(** X4: a [write] of [len] bytes, [len] a positive multiple of 4, that passes
    the guard, from a byte memory and with no address shared between the
    buffer and the destination, returns [SEEPROM_OK]; afterwards the byte at
    [start + startOffset + j] is [value[j]] for every [j < len], and no cell
    outside these [len] bytes has changed.  This holds at every
    [startOffset]. *)
Theorem X4_write_of_whole_words_copies_the_buffer
    (self : sEEPROM) (startOffset value len : Z) (m : machine) :
  1 <= len < 2 ^ 16 ->
  len mod 4 = 0 ->
  ~ wraps_below self startOffset len ->
  bytes_mem (mem m) ->
  apart value len (wrap32 (start self + startOffset)) len ->
  exists m',
    write self startOffset value len m = Some (SEEPROM_OK, m') /\
    (forall j, 0 <= j < len ->
       mem m' (wrap32 (start self + startOffset + j))
         = mem m (wrap32 (value + j))) /\
    same_outside (mem m) (mem m') (wrap32 (start self + startOffset)) len.
Proof.
  intros Hlen H4 G Hb Hap.
  destruct (write_words_copy self startOffset value len m Hlen H4 G Hb Hap)
    as (m' & E & C & O & _).
  exists m'. auto.
Qed.

(** X4 in the scenario: [write(6, value, 8)]. *)
Lemma X4_witness :
  exists m',
    write demo 6 value_addr 8 (boot demo_ram) = Some (SEEPROM_OK, m') /\
    (forall j, 0 <= j < 8 ->
       mem m' (wrap32 (start demo + 6 + j))
         = mem (boot demo_ram) (wrap32 (value_addr + j))) /\
    same_outside (mem (boot demo_ram)) (mem m') (wrap32 (start demo + 6)) 8.
Proof.
  apply (X4_write_of_whole_words_copies_the_buffer
           demo 6 value_addr 8 (boot demo_ram)).
  - lia.
  - reflexivity.
  - unfold demo. scenario_arith.
  - exact demo_ram_bytes.
  - unfold demo. scenario_arith.
Defined.

Lemma bytes_at_ext (m1 m2 : machine) (a1 a2 : Z) (n : nat) :
  (forall j, 0 <= j < Z.of_nat n ->
     mem m1 (wrap32 (a1 + j)) = mem m2 (wrap32 (a2 + j))) ->
  bytes_at m1 a1 n = bytes_at m2 a2 n.
Proof.
  intros H. unfold bytes_at. apply map_ext_in. intros i Hi.
  apply in_seq in Hi. apply H. lia.
Qed.

(** X5: [write] followed by [read] of the same range round-trips when [len]
    is a positive multiple of 4: with a byte memory, and no address shared
    between the buffer and the destination nor between the destination and
    [output], both calls return [SEEPROM_OK] and the [len] bytes at [output]
    are the [len] bytes the buffer held. *)
Theorem X5_whole_words_round_trip
    (self : sEEPROM) (startOffset value output len : Z) (m : machine) :
  1 <= len < 2 ^ 16 ->
  len mod 4 = 0 ->
  ~ wraps_below self startOffset len ->
  bytes_mem (mem m) ->
  apart value len (wrap32 (start self + startOffset)) len ->
  apart (wrap32 (start self + startOffset)) len output len ->
  exists m',
    write_then_read self startOffset value output len m
      = Some ((SEEPROM_OK, SEEPROM_OK), m') /\
    bytes_at m' output (Z.to_nat len) = bytes_at m value (Z.to_nat len).
Proof.
  intros Hlen H4 G Hb Hvd Hdo.
  destruct (write_words_copy self startOffset value len m Hlen H4 G Hb Hvd)
    as (m1 & E1 & C1 & _ & B1).
  destruct (read_copy self startOffset output len m1 Hlen G B1 Hdo)
    as (m2 & E2 & C2 & _ & _).
  exists m2. unfold write_then_read, bind. rewrite E1, E2.
  split; [reflexivity|].
  apply bytes_at_ext. intros j Hj.
  rewrite C2, C1 by lia. reflexivity.
Qed.

(** X5 in the scenario: eight bytes at offset 4. *)
Lemma X5_witness :
  exists m',
    write_then_read demo 4 value_addr output_addr 8 (boot demo_ram)
      = Some ((SEEPROM_OK, SEEPROM_OK), m') /\
    bytes_at m' output_addr (Z.to_nat 8)
      = bytes_at (boot demo_ram) value_addr (Z.to_nat 8).
Proof.
  apply (X5_whole_words_round_trip
           demo 4 value_addr output_addr 8 (boot demo_ram)).
  - lia.
  - reflexivity.
  - unfold demo. scenario_arith.
  - exact demo_ram_bytes.
  - unfold demo. scenario_arith.
  - unfold demo. scenario_arith.
Defined.

(** ** [erase] *)

Lemma cleared_bytes (f g : Z -> Z) (base n : Z) :
  cleared f g base n -> bytes_mem f -> bytes_mem g.
Proof.
  intros C Hf x. destruct (C x) as [[_ ->]|[_ ->]]; [lia | apply Hf].
Qed.

Lemma cleared_at (f g : Z -> Z) (base n j : Z) :
  cleared f g base n -> 0 <= j < n -> g (wrap32 (base + j)) = 0.
Proof.
  intros C Hj. destruct (C (wrap32 (base + j))) as [[_ E]|[N _]]; [exact E|].
  exfalso. apply N. exists j. split; [exact Hj|reflexivity].
Qed.

Lemma cleared_outside (f g : Z -> Z) (base n : Z) :
  cleared f g base n -> same_outside f g base n.
Proof.
  intros C x N. destruct (C x) as [[I _]|[_ E]]; [contradiction|exact E].
Qed.

(** X6: an [erase] of [1 <= len] words at an aligned [startOffset] that passes
    the guard returns [SEEPROM_OK]; afterwards each of the [4 * len] bytes at
    [start + startOffset] is zero and no other cell has changed. *)
Theorem X6_erase_clears_exactly_the_len_words
    (self : sEEPROM) (startOffset len : Z) (m : machine) :
  1 <= len < 2 ^ 16 ->
  startOffset mod 4 = 0 ->
  ~ wraps_below self startOffset (len * 4) ->
  exists m',
    erase self startOffset len m = Some (SEEPROM_OK, m') /\
    (forall j, 0 <= j < 4 * len ->
       mem m' (wrap32 (start self + startOffset + j)) = 0) /\
    same_outside (mem m) (mem m') (wrap32 (start self + startOffset)) (4 * len).
Proof.
  intros Hlen Ha G.
  destruct (erase_accepts self startOffset len m) as
    (m' & _ & _ & _ & E & _ & _ & _ & _ & _ & _ & _ & C);
    [lia | exact Ha | exact G |].
  rewrite rounds_pos in C by lia.
  exists m'. split; [exact E|]. split.
  - intros j Hj. rewrite <- (wrap32_idem_add (start self + startOffset) j).
    apply (cleared_at _ _ _ _ _ C Hj).
  - apply (cleared_outside _ _ _ _ C).
Qed.

(** X6 in the scenario: [erase(8, 3)]. *)
Lemma X6_witness :
  exists m',
    erase demo 8 3 (boot demo_ram) = Some (SEEPROM_OK, m') /\
    (forall j, 0 <= j < 4 * 3 -> mem m' (wrap32 (start demo + 8 + j)) = 0) /\
    same_outside (mem (boot demo_ram)) (mem m') (wrap32 (start demo + 8))
                 (4 * 3).
Proof.
  apply (X6_erase_clears_exactly_the_len_words demo 8 3 (boot demo_ram)).
  - lia.
  - reflexivity.
  - unfold demo. scenario_arith.
Defined.

Lemma bytes_at_zero (m : machine) (a : Z) (n : nat) :
  (forall j, 0 <= j < Z.of_nat n -> mem m (wrap32 (a + j)) = 0) ->
  bytes_at m a n = repeat 0 n.
Proof.
  intros H. unfold bytes_at.
  replace (repeat 0 n) with (map (fun _ : nat => 0) (seq 0 n))
    by (rewrite map_const, length_seq; reflexivity).
  apply map_ext_in. intros i Hi. apply in_seq in Hi. apply H. lia.
Qed.

(** X7: words erased read back as zero: after an [erase] of [len] words
    ([1 <= len], [4 * len < 2^16], aligned and accepted), a [read] of the same
    [4 * len] bytes into an [output] range that shares no address with them
    returns [SEEPROM_OK] and fills [output] with zero bytes. *)
Theorem X7_erased_words_read_back_as_zero
    (self : sEEPROM) (startOffset output len : Z) (m : machine) :
  1 <= len -> 4 * len < 2 ^ 16 ->
  startOffset mod 4 = 0 ->
  ~ wraps_below self startOffset (len * 4) ->
  bytes_mem (mem m) ->
  apart (wrap32 (start self + startOffset)) (4 * len) output (4 * len) ->
  exists m',
    erase_then_read self startOffset output len m
      = Some ((SEEPROM_OK, SEEPROM_OK), m') /\
    bytes_at m' output (Z.to_nat (4 * len)) = repeat 0 (Z.to_nat (4 * len)).
Proof.
  intros H1 H2 Ha G Hb Hap.
  destruct (erase_accepts self startOffset len m) as
    (m1 & _ & _ & _ & E1 & _ & _ & _ & _ & _ & _ & _ & C);
    [lia | exact Ha | exact G |].
  rewrite rounds_pos in C by lia.
  pose proof (cleared_bytes _ _ _ _ C Hb) as B1.
  rewrite Z.mul_comm in G.
  destruct (read_copy self startOffset output (4 * len) m1) as
    (m2 & E2 & C2 & _ & _); [lia | exact G | exact B1 | exact Hap |].
  exists m2. unfold erase_then_read, bind. rewrite E1, E2.
  split; [reflexivity|].
  apply bytes_at_zero. intros j Hj. rewrite C2 by lia.
  rewrite <- (wrap32_idem_add (start self + startOffset) j).
  apply (cleared_at _ _ _ _ _ C). lia.
Qed.

(** X7 in the scenario: three words at offset 8. *)
Lemma X7_witness :
  exists m',
    erase_then_read demo 8 output_addr 3 (boot demo_ram)
      = Some ((SEEPROM_OK, SEEPROM_OK), m') /\
    bytes_at m' output_addr (Z.to_nat (4 * 3)) = repeat 0 (Z.to_nat (4 * 3)).
Proof.
  apply (X7_erased_words_read_back_as_zero
           demo 8 output_addr 3 (boot demo_ram)).
  - lia.
  - lia.
  - reflexivity.
  - unfold demo. scenario_arith.
  - exact demo_ram_bytes.
  - unfold demo. scenario_arith.
Defined.

(** ** The guard, in plain arithmetic *)

Lemma wraps_below_iff (self : sEEPROM) (startOffset nbytes : Z) :
  0 <= start self < 2 ^ 32 ->
  0 <= startOffset < 2 ^ 32 -> 0 <= nbytes ->
  start self + startOffset + nbytes < 2 * 2 ^ 32 ->
  wraps_below self startOffset nbytes <->
  start self + nbytes < 2 ^ 32 <= start self + startOffset + nbytes.
Proof.
  intros Hs Ho Hn Htop. unfold wraps_below, wrap32.
  Z.div_mod_to_equations. lia.
Qed.

(** X8: for a 32-bit [start] and 16-bit [startOffset] and [len], [read] and
    [write] reject a request exactly when its last address crosses [2^32]
    because of the offset: [start + len < 2^32 <= start + startOffset + len].
    Every other request is accepted, whatever the sector's [length]. *)
Theorem X8_guard_fires_only_across_the_end_of_the_address_space
    (self : sEEPROM) (startOffset buf len : Z) (m : machine) :
  0 <= start self < 2 ^ 32 ->
  0 <= startOffset < 2 ^ 16 ->
  0 <= len < 2 ^ 16 ->
  decides (read self startOffset buf len m)
    (start self + len < 2 ^ 32 <= start self + startOffset + len) /\
  decides (write self startOffset buf len m)
    (start self + len < 2 ^ 32 <= start self + startOffset + len).
Proof.
  intros Hs Ho Hlen.
  assert (W : wraps_below self startOffset len <->
              start self + len < 2 ^ 32 <= start self + startOffset + len)
    by (apply wraps_below_iff; lia).
  split.
  - apply (decides_intro _ _ m).
    + intros A. apply read_rejects, W, A.
    + intros A. destruct (read_accepts self startOffset buf len m Hlen)
        as (m' & _ & E & _); [tauto | eauto].
    + lia.
  - apply (decides_intro _ _ m).
    + intros A. apply write_rejects, W, A.
    + intros A. destruct (write_accepts self startOffset buf len m)
        as (m' & _ & E & _); [tauto | eauto].
    + lia.
Qed.

(** X8 for a sector in the last 16 bytes of the address space. *)
Lemma X8_witness :
  decides (read (mk_sEEPROM 0xFFFFFFF0 16) 12 output_addr 8 (boot (fun _ => 0)))
    (0xFFFFFFF0 + 8 < 2 ^ 32 <= 0xFFFFFFF0 + 12 + 8) /\
  decides (write (mk_sEEPROM 0xFFFFFFF0 16) 12 value_addr 8 (boot (fun _ => 0)))
    (0xFFFFFFF0 + 8 < 2 ^ 32 <= 0xFFFFFFF0 + 12 + 8).
Proof.
  split.
  - apply (X8_guard_fires_only_across_the_end_of_the_address_space
             (mk_sEEPROM 0xFFFFFFF0 16) 12 output_addr 8 (boot (fun _ => 0)));
      cbn [start]; lia.
  - apply (X8_guard_fires_only_across_the_end_of_the_address_space
             (mk_sEEPROM 0xFFFFFFF0 16) 12 value_addr 8 (boot (fun _ => 0)));
      cbn [start]; lia.
Defined.

(** ** What [write] may change *)

Lemma same_outside_trans (f g h : Z -> Z) (base n : Z) :
  same_outside f g base n -> same_outside g h base n ->
  same_outside f h base n.
Proof. intros H1 H2 x N. rewrite (H2 x N). apply H1, N. Qed.

Lemma same_outside_within (f g : Z -> Z) (b n b' n' : Z) :
  (forall x, in_span b n x -> in_span b' n' x) ->
  same_outside f g b n -> same_outside f g b' n'.
Proof. intros Hin H x N. apply H. intros I. apply N, Hin, I. Qed.

Lemma in_span_sub (b k n n' x : Z) :
  0 <= k -> k + n <= n' ->
  in_span (wrap32 (b + k)) n x -> in_span (wrap32 b) n' x.
Proof.
  intros Hk Hn (j & Hj & ->). exists (k + j). split; [lia|].
  rewrite !wrap32_idem_add. f_equal. lia.
Qed.

Lemma store_le_outside (w : nat) (f : Z -> Z) (a v : Z) :
  same_outside f (store_le f a w v) a (Z.of_nat w).
Proof.
  intros x N. destruct (store_le_cases w f a v x) as [(k & Hk & -> & _)|[_ E]];
    [|exact E].
  exfalso. apply N. exists k. split; [exact Hk|reflexivity].
Qed.

Lemma run_write_T_outside (w : nat) (startAddr value : Z) (n : nat) :
  forall idx m m',
    run n (write_T_step w startAddr value) idx m = Some (tt, m') ->
    same_outside (mem m) (mem m') (startAddr + Z.of_nat w * idx)
                 (Z.of_nat w * Z.of_nat n).
Proof.
  induction n as [|n IH]; intros idx m m' E.
  - cbn in E. injection E as <-. intros x _. reflexivity.
  - cbn [run] in E. unfold bind at 1 in E.
    destruct (write_T_step_mem w startAddr value idx m) as (m1 & E1 & M1).
    rewrite E1 in E. apply IH in E.
    intros x N. rewrite (E x), M1.
    + apply store_le_outside. intros I. apply N.
      eapply in_span_weaken; [|exact I]. lia.
    + intros I. apply N.
      replace (startAddr + Z.of_nat w * (idx + 1))
        with (startAddr + Z.of_nat w * idx + Z.of_nat w) in I by lia.
      apply in_span_shift in I; [|lia].
      eapply in_span_weaken; [|exact I]. lia.
Qed.

Lemma write_T_outside (w : nat) (startAddr value len : Z) (m m' : machine) :
  1 <= len < 2 ^ 16 ->
  write_T w startAddr value len m = Some (tt, m') ->
  same_outside (mem m) (mem m') startAddr (Z.of_nat w * len).
Proof.
  intros Hlen E.
  destruct (write_T_as_run w startAddr value len m) as (m1 & R & E1 & _);
    [lia|].
  assert (m1 = m') by congruence. subst m1.
  rewrite rounds_pos in R by lia.
  apply run_write_T_outside in R.
  replace (startAddr + Z.of_nat w * 0) with startAddr in R by lia.
  replace (Z.of_nat (Z.to_nat len)) with len in R by lia. exact R.
Qed.

(** A chunk group of [sEEPROM::write]: the offset it hands on and the cells
    it may change. *)
Lemma chunk_outside (w : nat) (startAddr value n x : Z) (m : machine) :
  0 <= n < 2 ^ 16 ->
  exists m',
    (if n =? 0 then ret x
     else write_T w startAddr value n ;; ret (wrap16 (x + n * Z.of_nat w))) m
      = Some (if n =? 0 then x else wrap16 (x + n * Z.of_nat w), m') /\
    same_outside (mem m) (mem m') startAddr (Z.of_nat w * n).
Proof.
  intros Hn. destruct (Z.eqb_spec n 0) as [->|Hne].
  - exists m. split; [reflexivity|]. intros y _. reflexivity.
  - destruct (write_T_as_run w startAddr value n m Hn) as (m' & _ & E & _).
    exists m'. unfold bind. rewrite E. split; [reflexivity|].
    apply (write_T_outside w startAddr value n m m'); [lia | exact E].
Qed.

(** X9: a [write] of a range that ends below offset [2^16] and passes the
    guard returns [SEEPROM_OK] and changes no cell outside the [len] bytes at
    [start + startOffset], whatever the memory holds and wherever the buffer
    lies. *)
Theorem X9_write_changes_only_the_destination_range
    (self : sEEPROM) (startOffset value len : Z) (m : machine) :
  0 <= startOffset -> 0 <= len ->
  startOffset + len < 2 ^ 16 ->
  ~ wraps_below self startOffset len ->
  exists m',
    write self startOffset value len m = Some (SEEPROM_OK, m') /\
    same_outside (mem m) (mem m') (wrap32 (start self + startOffset)) len.
Proof.
  intros Ho Hl Hsum G.
  unfold wraps_below in G. apply Z.ltb_nlt in G.
  unfold write. rewrite G. unfold bind at 1. rewrite unlockEEPROM_eq.
  pose proof (Z.div_mod len 4) as D4. pose proof (Z.mod_pos_bound len 4) as B4.
  pose proof (Z.div_mod (len mod 4) 2) as D2.
  pose proof (Z.mod_pos_bound (len mod 4) 2) as B2.
  rewrite (wrap16_small (len / 4)) by lia.
  rewrite (wrap16_small (len mod 4)) by lia.
  rewrite (wrap16_small (len mod 4 / 2)) by lia.
  rewrite (wrap16_small (len mod 4 mod 2)) by lia.
  set (n4 := len / 4) in *. set (n2 := len mod 4 / 2) in *.
  set (n1 := len mod 4 mod 2) in *.
  unfold bind at 1.
  destruct (chunk_outside 4 (wrap32 (start self + startOffset)) value n4
              startOffset (unlocked m)) as (m1 & E1 & O1); [lia|].
  change (Z.of_nat 4) with 4 in E1. rewrite E1.
  assert (S1 : (if n4 =? 0 then startOffset
                else wrap16 (startOffset + n4 * 4)) = startOffset + 4 * n4).
  { destruct (Z.eqb_spec n4 0); [lia|]. rewrite wrap16_small; lia. }
  rewrite S1. unfold bind at 1.
  destruct (chunk_outside 2 (wrap32 (start self + (startOffset + 4 * n4)))
              (value + 2 * (startOffset + 4 * n4)) n2
              (startOffset + 4 * n4) m1) as (m2 & E2 & O2); [lia|].
  change (Z.of_nat 2) with 2 in E2. rewrite E2.
  assert (S2 : (if n2 =? 0 then startOffset + 4 * n4
                else wrap16 (startOffset + 4 * n4 + n2 * 2))
               = startOffset + 4 * n4 + 2 * n2).
  { destruct (Z.eqb_spec n2 0); [lia|]. rewrite wrap16_small; lia. }
  rewrite S2. unfold bind at 1.
  assert (E3 : exists m3,
    (if n1 =? 0 then ret tt
     else write_T 1 (wrap32 (start self + (startOffset + 4 * n4 + 2 * n2)))
            (value + (startOffset + 4 * n4 + 2 * n2)) n1) m2 = Some (tt, m3) /\
    same_outside (mem m2) (mem m3)
      (wrap32 (start self + (startOffset + 4 * n4 + 2 * n2))) n1).
  { destruct (Z.eqb_spec n1 0) as [->|Hne].
    - exists m2. split; [reflexivity|]. intros y _. reflexivity.
    - destruct (write_T_as_run 1 (wrap32 (start self +
                  (startOffset + 4 * n4 + 2 * n2)))
                  (value + (startOffset + 4 * n4 + 2 * n2)) n1 m2)
        as (m3 & _ & E & _); [lia|].
      exists m3. split; [exact E|].
      apply write_T_outside in E; [|lia].
      replace (Z.of_nat 1 * n1) with n1 in E by lia. exact E. }
  destruct E3 as (m3 & E3 & O3). rewrite E3.
  unfold bind at 1. rewrite lockEEPROM_eq.
  eexists. split; [reflexivity|]. cbn [mem].
  apply same_outside_trans with (g := mem m2);
    [apply same_outside_trans with (g := mem m1)|].
  - eapply same_outside_within; [|exact O1].
    intros x I. eapply in_span_weaken; [|exact I].
    change (Z.of_nat 4) with 4. lia.
  - eapply same_outside_within; [|exact O2].
    intros x I. replace (start self + (startOffset + 4 * n4))
      with (start self + startOffset + 4 * n4) in I by lia.
    eapply in_span_sub; [| |exact I]; change (Z.of_nat 2) with 2; lia.
  - eapply same_outside_within; [|exact O3].
    intros x I. replace (start self + (startOffset + 4 * n4 + 2 * n2))
      with (start self + startOffset + (4 * n4 + 2 * n2)) in I by lia.
    eapply in_span_sub; [| |exact I]; lia.
Qed.

(** X9 in the scenario: [write(5, value, 7)], with all three chunk groups. *)
Lemma X9_witness :
  exists m',
    write demo 5 value_addr 7 (boot demo_ram) = Some (SEEPROM_OK, m') /\
    same_outside (mem (boot demo_ram)) (mem m') (wrap32 (start demo + 5)) 7.
Proof.
  apply (X9_write_changes_only_the_destination_range
           demo 5 value_addr 7 (boot demo_ram)).
  - lia.
  - lia.
  - lia.
  - unfold demo. scenario_arith.
Defined.

(** ** The logs of [erase] and [write], event by event *)




Lemma run_chunk_log (w : nat) (startAddr value : Z) (n : nat) :
  forall idx m, exists m' evs,
    run n (write_T_step w startAddr value) idx m = Some (tt, m') /\
    emits m m' evs /\
    chunk_log w (startAddr + Z.of_nat w * idx) n evs.
Proof.
  induction n as [|n IH]; intros idx m.
  - exists m, []. cbn. split; [reflexivity|].
    split; [apply emits_nil | constructor].
  - cbn [run]. unfold bind at 1.
    set (v := load_le (mem m) (value + Z.of_nat w * idx) w).
    set (m0 := mkMachine
                 (store_le (mem m) (startAddr + Z.of_nat w * idx) w v)
                 (PECR m) (PEKEYR m)
                 (EvStore w (startAddr + Z.of_nat w * idx) v
                    :: EvLoad w (value + Z.of_nat w * idx)
                    :: EvBusyWait :: trace m)).
    change (write_T_step w startAddr value idx m) with (Some (tt, m0)).
    destruct (IH (idx + 1) m0) as (m' & evs & E & T & L).
    exists m', (EvBusyWait :: EvLoad w (value + Z.of_nat w * idx)
                  :: EvStore w (startAddr + Z.of_nat w * idx) v :: evs).
    rewrite E. split; [reflexivity|]. split.
    + apply (emits_app m m0 m'
               [EvBusyWait; EvLoad w (value + Z.of_nat w * idx);
                EvStore w (startAddr + Z.of_nat w * idx) v] evs);
        [log_eq | exact T].
    + constructor.
      replace (startAddr + Z.of_nat w * idx + Z.of_nat w)
        with (startAddr + Z.of_nat w * (idx + 1)) by lia.
      exact L.
Qed.

(** A chunk group of [sEEPROM::write]: the offset it hands on and its log. *)
Lemma chunk_group_log (w : nat) (startAddr value n x : Z) (m : machine) :
  0 <= n < 2 ^ 16 ->
  exists m' evs,
    (if n =? 0 then ret x
     else write_T w startAddr value n ;; ret (wrap16 (x + n * Z.of_nat w))) m
      = Some (if n =? 0 then x else wrap16 (x + n * Z.of_nat w), m') /\
    emits m m' evs /\
    chunk_log w startAddr (Z.to_nat n) evs.
Proof.
  intros Hn. destruct (Z.eqb_spec n 0) as [->|Hne].
  - exists m, []. split; [reflexivity|].
    split; [apply emits_nil | constructor].
  - destruct (run_chunk_log w startAddr value (Z.to_nat n) 0 m)
      as (m' & evs & E & T & L).
    exists m', evs. unfold bind, write_T.
    rewrite do_while_run, rounds_pos, E by lia.
    split; [reflexivity|]. split; [exact T|].
    replace (startAddr + Z.of_nat w * 0) with startAddr in L by lia. exact L.
Qed.

Lemma last_chunk_log (startAddr value n : Z) (m : machine) :
  0 <= n < 2 ^ 16 ->
  exists m' evs,
    (if n =? 0 then ret tt else write_T 1 startAddr value n) m
      = Some (tt, m') /\
    emits m m' evs /\
    chunk_log 1 startAddr (Z.to_nat n) evs.
Proof.
  intros Hn. destruct (Z.eqb_spec n 0) as [->|Hne].
  - exists m, []. split; [reflexivity|].
    split; [apply emits_nil | constructor].
  - destruct (run_chunk_log 1 startAddr value (Z.to_nat n) 0 m)
      as (m' & evs & E & T & L).
    exists m', evs. unfold write_T.
    rewrite do_while_run, rounds_pos, E by lia.
    split; [reflexivity|]. split; [exact T|].
    replace (startAddr + Z.of_nat 1 * 0) with startAddr in L by lia. exact L.
Qed.

(** X11: the order, widths and destinations of the stores of [write].  For a
    range that ends below offset [2^16] and below address [2^32], the log of
    [write] is the unlock, then [len / 4] rounds of busy-wait, 4-byte load and
    4-byte store at [start + startOffset], [+ 4], ..., then [(len mod 4) / 2]
    such rounds with a 2-byte store at the next address, then [len mod 2] with
    a 1-byte store at the next address, then the lock.  The stores cover the
    [len] destination bytes once, in ascending order, and each one comes after
    a busy-wait. *)
Theorem X11_write_stores_words_then_a_halfword_then_a_byte
    (self : sEEPROM) (startOffset value len : Z) (m : machine) :
  0 <= start self -> 0 <= startOffset -> 0 <= len ->
  startOffset + len < 2 ^ 16 ->
  start self + startOffset + len < 2 ^ 32 ->
  exists m' l4 l2 l1,
    write self startOffset value len m = Some (SEEPROM_OK, m') /\
    emits m m' ([EvBusyWait; EvKey PEKEY_VALUE_1; EvKey PEKEY_VALUE_2]
                  ++ l4 ++ l2 ++ l1 ++ [EvBusyWait; EvPecr (PECR m')]) /\
    chunk_log 4 (start self + startOffset) (Z.to_nat (len / 4)) l4 /\
    chunk_log 2 (start self + startOffset + 4 * (len / 4))
              (Z.to_nat (len mod 4 / 2)) l2 /\
    chunk_log 1 (start self + startOffset + 4 * (len / 4) + 2 * (len mod 4 / 2))
              (Z.to_nat (len mod 2)) l1.
Proof.
  intros Hs Ho Hl Hsum Htop.
  assert (G : ~ wraps_below self startOffset len)
    by (apply no_wrap_below_2_32; lia).
  unfold wraps_below in G. apply Z.ltb_nlt in G.
  unfold write. rewrite G. unfold bind at 1. rewrite unlockEEPROM_eq.
  pose proof (Z.div_mod len 4) as D4. pose proof (Z.mod_pos_bound len 4) as B4.
  pose proof (Z.div_mod (len mod 4) 2) as D2.
  pose proof (Z.mod_pos_bound (len mod 4) 2) as B2.
  assert (M2 : len mod 2 = len mod 4 mod 2).
  { pose proof (Z.div_mod len 2). pose proof (Z.mod_pos_bound len 2). lia. }
  rewrite M2.
  rewrite (wrap16_small (len / 4)) by lia.
  rewrite (wrap16_small (len mod 4)) by lia.
  rewrite (wrap16_small (len mod 4 / 2)) by lia.
  rewrite (wrap16_small (len mod 4 mod 2)) by lia.
  set (n4 := len / 4) in *. set (n2 := len mod 4 / 2) in *.
  set (n1 := len mod 4 mod 2) in *.
  assert (A0 : wrap32 (start self + startOffset) = start self + startOffset)
    by (apply Z.mod_small; lia).
  assert (A1 : wrap32 (start self + (startOffset + 4 * n4))
               = start self + startOffset + 4 * n4).
  { unfold wrap32. rewrite Z.mod_small; lia. }
  assert (A2 : wrap32 (start self + (startOffset + 4 * n4 + 2 * n2))
               = start self + startOffset + 4 * n4 + 2 * n2).
  { unfold wrap32. rewrite Z.mod_small; lia. }
  unfold bind at 1.
  destruct (chunk_group_log 4 (wrap32 (start self + startOffset)) value n4
              startOffset (unlocked m)) as (m1 & l4 & E1 & T1 & L1); [lia|].
  change (Z.of_nat 4) with 4 in E1. rewrite E1.
  assert (S1 : (if n4 =? 0 then startOffset
                else wrap16 (startOffset + n4 * 4)) = startOffset + 4 * n4).
  { destruct (Z.eqb_spec n4 0); [lia|]. rewrite wrap16_small; lia. }
  rewrite S1. unfold bind at 1.
  destruct (chunk_group_log 2 (wrap32 (start self + (startOffset + 4 * n4)))
              (value + 2 * (startOffset + 4 * n4)) n2
              (startOffset + 4 * n4) m1) as (m2 & l2 & E2 & T2 & L2); [lia|].
  change (Z.of_nat 2) with 2 in E2. rewrite E2.
  assert (S2 : (if n2 =? 0 then startOffset + 4 * n4
                else wrap16 (startOffset + 4 * n4 + n2 * 2))
               = startOffset + 4 * n4 + 2 * n2).
  { destruct (Z.eqb_spec n2 0); [lia|]. rewrite wrap16_small; lia. }
  rewrite S2. unfold bind at 1.
  destruct (last_chunk_log
              (wrap32 (start self + (startOffset + 4 * n4 + 2 * n2)))
              (value + (startOffset + 4 * n4 + 2 * n2)) n1 m2)
    as (m3 & l1 & E3 & T3 & L3); [lia|].
  rewrite E3. unfold bind at 1. rewrite lockEEPROM_eq. cbn [ret].
  rewrite A0 in L1. rewrite A1 in L2. rewrite A2 in L3.
  eexists _, l4, l2, l1. split; [reflexivity|]. cbn [PECR].
  split; [|auto].
  unfold emits, history in *. cbn [trace unlocked] in *.
  cbn [rev]. rewrite T3, T2, T1. cbn [rev].
  repeat rewrite <- app_assoc. reflexivity.
Qed.

(** X11 in the scenario: [write(5, value, 7)]. *)
Lemma X11_witness :
  exists m' l4 l2 l1,
    write demo 5 value_addr 7 (boot demo_ram) = Some (SEEPROM_OK, m') /\
    emits (boot demo_ram) m'
          ([EvBusyWait; EvKey PEKEY_VALUE_1; EvKey PEKEY_VALUE_2]
             ++ l4 ++ l2 ++ l1 ++ [EvBusyWait; EvPecr (PECR m')]) /\
    chunk_log 4 (start demo + 5) (Z.to_nat (7 / 4)) l4 /\
    chunk_log 2 (start demo + 5 + 4 * (7 / 4)) (Z.to_nat (7 mod 4 / 2)) l2 /\
    chunk_log 1 (start demo + 5 + 4 * (7 / 4) + 2 * (7 mod 4 / 2))
              (Z.to_nat (7 mod 2)) l1.
Proof.
  apply (X11_write_stores_words_then_a_halfword_then_a_byte
           demo 5 value_addr 7 (boot demo_ram));
    unfold demo, SEEPROM_START; cbn [start]; lia.
Defined.

(** ** Writing back what was read *)

(** X12: reading a range of whole words into a buffer and writing the buffer
    back to the same range leaves the range as it was: with a byte memory and
    no address shared between the buffer and the range, both calls return
    [SEEPROM_OK] and each of the [len] bytes at [start + startOffset] holds
    what it held before. *)
Theorem X12_writing_back_what_was_read_changes_nothing
    (self : sEEPROM) (startOffset buf len : Z) (m : machine) :
  1 <= len < 2 ^ 16 ->
  len mod 4 = 0 ->
  ~ wraps_below self startOffset len ->
  bytes_mem (mem m) ->
  apart (wrap32 (start self + startOffset)) len buf len ->
  exists m',
    read_then_write self startOffset buf len m
      = Some ((SEEPROM_OK, SEEPROM_OK), m') /\
    forall j, 0 <= j < len ->
      mem m' (wrap32 (start self + startOffset + j))
        = mem m (wrap32 (start self + startOffset + j)).
Proof.
  intros Hlen H4 G Hb Hap.
  destruct (read_copy self startOffset buf len m Hlen G Hb Hap)
    as (m1 & E1 & C1 & _ & B1).
  assert (Hap' : apart buf len (wrap32 (start self + startOffset)) len).
  { intros i j Hi Hj A. apply (Hap j i Hj Hi). symmetry. exact A. }
  destruct (write_words_copy self startOffset buf len m1 Hlen H4 G B1 Hap')
    as (m2 & E2 & C2 & _ & _).
  exists m2. unfold read_then_write, bind. rewrite E1, E2.
  split; [reflexivity|].
  intros j Hj. rewrite C2, C1 by lia. reflexivity.
Qed.

(** X12 in the scenario: eight bytes at offset 4, through [output]. *)
Lemma X12_witness :
  exists m',
    read_then_write demo 4 output_addr 8 (boot demo_ram)
      = Some ((SEEPROM_OK, SEEPROM_OK), m') /\
    forall j, 0 <= j < 8 ->
      mem m' (wrap32 (start demo + 4 + j))
        = mem (boot demo_ram) (wrap32 (start demo + 4 + j)).
Proof.
  apply (X12_writing_back_what_was_read_changes_nothing
           demo 4 output_addr 8 (boot demo_ram)).
  - lia.
  - reflexivity.
  - unfold demo. scenario_arith.
  - exact demo_ram_bytes.
  - unfold demo. scenario_arith.
Defined.

(** ** [write] at offset 0 *)

Lemma copied_congr (f g : Z -> Z) (d s d' s' n : Z) :
  (forall j, 0 <= j < n -> wrap32 (d' + j) = wrap32 (d + j)) ->
  (forall j, 0 <= j < n -> wrap32 (s' + j) = wrap32 (s + j)) ->
  copied f g d s n -> copied f g d' s' n.
Proof.
  intros Hd Hs C x. destruct (C x) as [(j & Hj & -> & E)|[N E]].
  - left. exists j. split; [exact Hj|].
    rewrite Hd, Hs by exact Hj. split; [reflexivity|exact E].
  - right. split; [|exact E]. intros (j & Hj & ->). apply N.
    exists j. split; [exact Hj|]. apply Hd, Hj.
Qed.

Lemma apart_congr (a b a' b' n k : Z) :
  (forall i, 0 <= i < n -> wrap32 (a' + i) = wrap32 (a + i)) ->
  (forall j, 0 <= j < k -> wrap32 (b' + j) = wrap32 (b + j)) ->
  apart a n b k -> apart a' n b' k.
Proof.
  intros Ha Hb H i j Hi Hj. rewrite Ha, Hb by assumption. apply H; assumption.
Qed.

(** What a chunk group of [sEEPROM::write] copies. *)
Lemma chunk_copied (w : nat) (startAddr value n : Z) (A : Type) (x y : A)
    (m : machine) :
  0 <= n < 2 ^ 16 ->
  Z.of_nat w * n <= 2 ^ 32 ->
  bytes_mem (mem m) ->
  apart value (Z.of_nat w * n) startAddr (Z.of_nat w * n) ->
  exists m',
    (if n =? 0 then ret x else write_T w startAddr value n ;; ret y) m
      = Some (if n =? 0 then x else y, m') /\
    copied (mem m) (mem m') startAddr value (Z.of_nat w * n) /\
    bytes_mem (mem m').
Proof.
  intros Hn Hw Hb Hap. destruct (Z.eqb_spec n 0) as [->|Hne].
  - exists m. split; [reflexivity|]. rewrite Z.mul_0_r.
    split; [apply copied_nil | exact Hb].
  - destruct (write_T_as_run w startAddr value n m Hn) as (m' & R & E & _).
    exists m'. unfold bind. rewrite E. split; [reflexivity|].
    rewrite rounds_pos in R by lia.
    destruct (run_copies _ w startAddr value (write_T_step_mem w _ _)
                (Z.to_nat n) 0 m m' R Hb) as [C B].
    + lia.
    + eapply apart_sub; [exact Hap | | | | | |];
        try (instantiate (1 := 0)); lia.
    + replace (Z.of_nat (Z.to_nat n)) with n in C by lia.
      replace (startAddr + Z.of_nat w * 0) with startAddr in C by lia.
      replace (value + Z.of_nat w * 0) with value in C by lia.
      split; assumption.
Qed.

Lemma last_chunk_copied (startAddr value n : Z) (m : machine) :
  0 <= n < 2 ^ 16 ->
  bytes_mem (mem m) ->
  apart value n startAddr n ->
  exists m',
    (if n =? 0 then ret tt else write_T 1 startAddr value n) m
      = Some (tt, m') /\
    copied (mem m) (mem m') startAddr value n /\
    bytes_mem (mem m').
Proof.
  intros Hn Hb Hap. destruct (Z.eqb_spec n 0) as [->|Hne].
  - exists m. split; [reflexivity|]. split; [apply copied_nil | exact Hb].
  - destruct (write_T_as_run 1 startAddr value n m Hn) as (m' & R & E & _).
    exists m'. split; [exact E|].
    rewrite rounds_pos in R by lia.
    destruct (run_copies _ 1 startAddr value (write_T_step_mem 1 _ _)
                (Z.to_nat n) 0 m m' R Hb) as [C B].
    + lia.
    + eapply apart_sub; [exact Hap | | | | | |];
        try (instantiate (1 := 0)); lia.
    + replace (Z.of_nat 1 * Z.of_nat (Z.to_nat n)) with n in C by lia.
      replace (startAddr + Z.of_nat 1 * 0) with startAddr in C by lia.
      replace (value + Z.of_nat 1 * 0) with value in C by lia.
      split; assumption.
Qed.

Lemma write_at_0_copy (self : sEEPROM) (value len : Z) (m : machine) :
  1 <= len < 2 ^ 16 ->
  len < 4 \/ len mod 4 <= 1 ->
  bytes_mem (mem m) ->
  apart value len (start self) len ->
  exists m',
    write self 0 value len m = Some (SEEPROM_OK, m') /\
    copied (mem m) (mem m') (start self) value len /\
    bytes_mem (mem m').
Proof.
  intros Hlen Hc Hb Hap.
  pose proof (no_wrap_at_offset_0 self len) as G.
  unfold wraps_below in G. apply Z.ltb_nlt in G.
  unfold write. rewrite G. unfold bind at 1. rewrite unlockEEPROM_eq.
  pose proof (Z.div_mod len 4) as D4. pose proof (Z.mod_pos_bound len 4) as B4.
  pose proof (Z.div_mod (len mod 4) 2) as D2.
  pose proof (Z.mod_pos_bound (len mod 4) 2) as B2.
  rewrite (wrap16_small (len / 4)) by lia.
  rewrite (wrap16_small (len mod 4)) by lia.
  rewrite (wrap16_small (len mod 4 / 2)) by lia.
  rewrite (wrap16_small (len mod 4 mod 2)) by lia.
  set (n4 := len / 4) in *. set (n2 := len mod 4 / 2) in *.
  set (n1 := len mod 4 mod 2) in *.
  assert (Hn : n2 = 0 \/ n4 = 0) by lia.
  unfold bind at 1.
  destruct (chunk_copied 4 (wrap32 (start self + 0)) value n4 Z
              0 (wrap16 (0 + n4 * 4)) (unlocked m)) as (m1 & E1 & C1 & B1);
    [lia | lia | exact Hb | |].
  { intros i j Hi Hj. rewrite wrap32_idem_add.
    replace (start self + 0 + j) with (start self + j) by lia.
    apply Hap; lia. }
  rewrite E1.
  assert (S1 : (if n4 =? 0 then 0 else wrap16 (0 + n4 * 4)) = 4 * n4).
  { destruct (Z.eqb_spec n4 0); [lia|]. rewrite wrap16_small; lia. }
  rewrite S1. unfold bind at 1.
  destruct (chunk_copied 2 (wrap32 (start self + 4 * n4)) (value + 2 * (4 * n4))
              n2 Z (4 * n4) (wrap16 (4 * n4 + n2 * 2)) m1)
    as (m2 & E2 & C2 & B2'); [lia | lia | exact B1 | |].
  { intros i j Hi Hj. rewrite wrap32_idem_add.
    replace (value + 2 * (4 * n4) + i) with (value + (4 * n4 + i)) by lia.
    replace (start self + 4 * n4 + j) with (start self + (4 * n4 + j)) by lia.
    apply Hap; lia. }
  rewrite E2.
  assert (S2 : (if n2 =? 0 then 4 * n4 else wrap16 (4 * n4 + n2 * 2))
               = 4 * n4 + 2 * n2).
  { destruct (Z.eqb_spec n2 0); [lia|]. rewrite wrap16_small; lia. }
  rewrite S2. unfold bind at 1.
  destruct (last_chunk_copied (wrap32 (start self + (4 * n4 + 2 * n2)))
              (value + (4 * n4 + 2 * n2)) n1 m2)
    as (m3 & E3 & C3 & B3); [lia | exact B2' | |].
  { intros i j Hi Hj. rewrite wrap32_idem_add.
    replace (value + (4 * n4 + 2 * n2) + i)
      with (value + (4 * n4 + 2 * n2 + i)) by lia.
    replace (start self + (4 * n4 + 2 * n2) + j)
      with (start self + (4 * n4 + 2 * n2 + j)) by lia.
    apply Hap; lia. }
  rewrite E3. unfold bind at 1. rewrite lockEEPROM_eq.
  eexists. split; [reflexivity|]. cbn [mem]. split; [|exact B3].
  change (mem (unlocked m)) with (mem m) in C1.
  replace len with (4 * n4 + 2 * n2 + n1) by lia.
  apply copied_app with (g := mem m2); [lia | lia | | |].
  - eapply apart_sub; [exact Hap | | | | | |];
      try (instantiate (1 := 0)); lia.
  - apply copied_app with (g := mem m1); [lia | lia | | |].
    + eapply apart_sub; [exact Hap | | | | | |];
        try (instantiate (1 := 0)); lia.
    + eapply copied_congr; [| |exact C1].
      * intros j Hj. rewrite wrap32_idem_add. apply f_equal. lia.
      * reflexivity.
    + eapply copied_congr; [| |exact C2].
      * intros j Hj. rewrite wrap32_idem_add. apply f_equal. lia.
      * intros j Hj. apply f_equal. lia.
  - eapply copied_congr; [| |exact C3].
    + intros j Hj. rewrite wrap32_idem_add. apply f_equal. lia.
    + intros j Hj. apply f_equal. lia.
Qed.

(** X13: at [startOffset = 0], a [write] of [len] bytes with [len < 4] or
    [len mod 4 <= 1] (that is, without a 2-byte element after a 4-byte one),
    from a byte memory and with no address shared between the buffer and the
    destination, returns [SEEPROM_OK]; afterwards the byte at [start + j] is
    [value[j]] for every [j < len], and no cell outside these [len] bytes has
    changed. *)
Theorem X13_write_at_offset_0_copies_the_buffer
    (self : sEEPROM) (value len : Z) (m : machine) :
  1 <= len < 2 ^ 16 ->
  len < 4 \/ len mod 4 <= 1 ->
  bytes_mem (mem m) ->
  apart value len (start self) len ->
  exists m',
    write self 0 value len m = Some (SEEPROM_OK, m') /\
    (forall j, 0 <= j < len ->
       mem m' (wrap32 (start self + j)) = mem m (wrap32 (value + j))) /\
    same_outside (mem m) (mem m') (start self) len.
Proof.
  intros Hlen Hc Hb Hap.
  destruct (write_at_0_copy self value len m Hlen Hc Hb Hap)
    as (m' & E & C & _).
  exists m'. split; [exact E|]. split.
  - intros j Hj. apply (copied_at _ _ _ _ len); [lia | exact C | exact Hj].
  - eapply copied_outside, C.
Qed.

(** X13 in the scenario: three bytes, then five bytes. *)
Lemma X13_witness :
  (exists m',
     write demo 0 value_addr 3 (boot demo_ram) = Some (SEEPROM_OK, m') /\
     (forall j, 0 <= j < 3 ->
        mem m' (wrap32 (start demo + j))
          = mem (boot demo_ram) (wrap32 (value_addr + j))) /\
     same_outside (mem (boot demo_ram)) (mem m') (start demo) 3) /\
  (exists m',
     write demo 0 value_addr 5 (boot demo_ram) = Some (SEEPROM_OK, m') /\
     (forall j, 0 <= j < 5 ->
        mem m' (wrap32 (start demo + j))
          = mem (boot demo_ram) (wrap32 (value_addr + j))) /\
     same_outside (mem (boot demo_ram)) (mem m') (start demo) 5).
Proof.
  split.
  - apply (X13_write_at_offset_0_copies_the_buffer
             demo value_addr 3 (boot demo_ram)).
    + lia.
    + left. lia.
    + exact demo_ram_bytes.
    + unfold demo. scenario_arith.
  - apply (X13_write_at_offset_0_copies_the_buffer
             demo value_addr 5 (boot demo_ram)).
    + lia.
    + right. cbn. lia.
    + exact demo_ram_bytes.
    + unfold demo. scenario_arith.
Defined.

(** X14: at [startOffset = 0], [write] followed by [read] round-trips for
    [len < 4] and for [len mod 4 <= 1]: with a byte memory, and no address
    shared between the buffer and the destination nor between the destination
    and [output], both calls return [SEEPROM_OK] and the [len] bytes at
    [output] are the [len] bytes the buffer held. *)
Theorem X14_round_trip_at_offset_0
    (self : sEEPROM) (value output len : Z) (m : machine) :
  1 <= len < 2 ^ 16 ->
  len < 4 \/ len mod 4 <= 1 ->
  bytes_mem (mem m) ->
  apart value len (start self) len ->
  apart (start self) len output len ->
  exists m',
    write_then_read self 0 value output len m
      = Some ((SEEPROM_OK, SEEPROM_OK), m') /\
    bytes_at m' output (Z.to_nat len) = bytes_at m value (Z.to_nat len).
Proof.
  intros Hlen Hc Hb Hvd Hdo.
  destruct (write_at_0_copy self value len m Hlen Hc Hb Hvd)
    as (m1 & E1 & C1 & B1).
  destruct (read_copy self 0 output len m1 Hlen
              (no_wrap_at_offset_0 self len) B1) as (m2 & E2 & C2 & _ & _).
  { intros i j Hi Hj. rewrite wrap32_idem_add.
    replace (start self + 0 + i) with (start self + i) by lia.
    apply Hdo; assumption. }
  exists m2. unfold write_then_read, bind. rewrite E1, E2.
  split; [reflexivity|].
  apply bytes_at_ext. intros j Hj. rewrite C2 by lia.
  replace (start self + 0 + j) with (start self + j) by lia.
  apply (copied_at _ _ _ _ len); [lia | exact C1 | lia].
Qed.

(** X14 in the scenario: one byte, two bytes. *)
Lemma X14_witness :
  (exists m',
     write_then_read demo 0 value_addr output_addr 1 (boot demo_ram)
       = Some ((SEEPROM_OK, SEEPROM_OK), m') /\
     bytes_at m' output_addr (Z.to_nat 1)
       = bytes_at (boot demo_ram) value_addr (Z.to_nat 1)) /\
  (exists m',
     write_then_read demo 0 value_addr output_addr 2 (boot demo_ram)
       = Some ((SEEPROM_OK, SEEPROM_OK), m') /\
     bytes_at m' output_addr (Z.to_nat 2)
       = bytes_at (boot demo_ram) value_addr (Z.to_nat 2)).
Proof.
  split.
  - apply (X14_round_trip_at_offset_0
             demo value_addr output_addr 1 (boot demo_ram)).
    + lia.
    + left. lia.
    + exact demo_ram_bytes.
    + unfold demo. scenario_arith.
    + unfold demo. scenario_arith.
  - apply (X14_round_trip_at_offset_0
             demo value_addr output_addr 2 (boot demo_ram)).
    + lia.
    + left. lia.
    + exact demo_ram_bytes.
    + unfold demo. scenario_arith.
    + unfold demo. scenario_arith.
Defined.

(** ** What [read] may change *)

Lemma run_read_outside (addr output : Z) (n : nat) :
  forall idx m m',
    run n (read_step addr output) idx m = Some (tt, m') ->
    same_outside (mem m) (mem m') (output + idx) (Z.of_nat n).
Proof.
  induction n as [|n IH]; intros idx m m' E.
  - cbn in E. injection E as <-. intros x _. reflexivity.
  - cbn [run] in E. unfold bind at 1 in E.
    destruct (read_step_mem addr output idx m) as (m1 & E1 & M1).
    rewrite E1 in E. apply IH in E.
    replace (output + Z.of_nat 1 * idx) with (output + idx) in M1 by lia.
    intros x N. rewrite (E x), M1.
    + apply store_le_outside. intros I. apply N.
      eapply in_span_weaken; [|exact I]. lia.
    + intros I. apply N.
      replace (output + (idx + 1)) with (output + idx + 1) in I by lia.
      apply in_span_shift in I; [|lia].
      eapply in_span_weaken; [|exact I]. lia.
Qed.

(** X15: an accepted [read] of [1 <= len] bytes changes no cell outside the
    [len] bytes at [output], whatever the memory holds and wherever [output]
    lies; in particular it leaves the sector as it was when [output] is
    elsewhere. *)
Theorem X15_read_changes_only_the_output_range
    (self : sEEPROM) (startOffset output len : Z) (m : machine) :
  1 <= len < 2 ^ 16 ->
  ~ wraps_below self startOffset len ->
  exists m',
    read self startOffset output len m = Some (SEEPROM_OK, m') /\
    same_outside (mem m) (mem m') output len.
Proof.
  intros Hlen G.
  destruct (read_as_run self startOffset output len m) as (m' & R & E);
    [lia | exact G |].
  exists m'. split; [exact E|].
  rewrite rounds_pos in R by lia.
  apply run_read_outside in R.
  replace (output + 0) with output in R by lia.
  replace (Z.of_nat (Z.to_nat len)) with len in R by lia. exact R.
Qed.

(** X15 in the scenario: [read(60, output, 8)]. *)
Lemma X15_witness :
  exists m',
    read demo 60 output_addr 8 (boot demo_ram) = Some (SEEPROM_OK, m') /\
    same_outside (mem (boot demo_ram)) (mem m') output_addr 8.
Proof.
  apply (X15_read_changes_only_the_output_range
           demo 60 output_addr 8 (boot demo_ram)).
  - lia.
  - unfold demo. scenario_arith.
Defined.
